(** * obsidian-aside-table: the markup parser [formatTable] of src/main.ts

    The parser is three regular expressions driven by [String.prototype.matchAll],
    plus [String.prototype.split] on a fourth one and [String.prototype.replace]
    with a string pattern.  The development embeds

    - JavaScript strings as lists of UTF-16 code units,
    - a backtracking matcher for the fragment of ECMAScript regular expressions
      the source uses (continuation-passing, as in the ECMAScript specification),
    - the drivers [matchAll], [split] and [replace],
    - [formatTable] itself, with the regular expressions written as syntax trees,

    and then characterises what each regular expression matches, so that the
    statements about the parser can be proved for every input.  The first
    part holds the definitions, the second part the theorems. *)

From Stdlib Require Import List NArith Arith Bool Lia.
From Stdlib Require String Ascii.
Import ListNotations String.StringSyntax.
Local Open Scope nat_scope.

(** ** Strings *)

(** A JavaScript string is a sequence of UTF-16 code units. *)
Definition char := N.
Definition str := list char.

Definition of_ascii (a : Ascii.ascii) : char := Ascii.N_of_ascii a.

(** A Rocq string literal as a JavaScript string. *)
Definition lit (s : String.string) : str :=
  List.map of_ascii (String.list_ascii_of_string s).

Definition ch_nl : char := 10%N.         (* \n *)
Definition ch_cr : char := 13%N.         (* \r *)
Definition ch_ls : char := 8232%N.       (* U+2028 *)
Definition ch_ps : char := 8233%N.       (* U+2029 *)
Definition ch_bang : char := 33%N.       (* ! *)
Definition ch_hash : char := 35%N.       (* # *)
Definition ch_dash : char := 45%N.       (* - *)
Definition ch_colon : char := 58%N.      (* : *)
Definition ch_semi : char := 59%N.       (* ; *)
Definition ch_bslash : char := 92%N.     (* \ *)
Definition ch_pipe : char := 124%N.      (* | *)

(** ECMAScript LineTerminator: what [.] refuses and what [^] and [$] look for
    under the [m] flag. *)
Definition is_lt (c : char) : bool :=
  (c =? ch_nl)%N || (c =? ch_cr)%N || (c =? ch_ls)%N || (c =? ch_ps)%N.

Definition not_lt (c : char) : bool := negb (is_lt c).

(** [lines] joined by a line feed, to write sources the way they look. *)
Fixpoint unlines (ls : list str) : str :=
  match ls with
  | [] => []
  | [l] => l
  | l :: ls' => l ++ ch_nl :: unlines ls'
  end.

Definition src (ls : list String.string) : str := unlines (List.map lit ls).

(** ** Results: a call returns, throws, or (in the model only) runs out of fuel *)

Inductive error := TypeError | OutOfFuel.

Inductive res (A : Type) : Type :=
| Ok (a : A)
| Err (e : error).
Arguments Ok {A} a.
Arguments Err {A} e.

Definition bind {A B} (x : res A) (f : A -> res B) : res B :=
  match x with
  | Ok a => f a
  | Err e => Err e
  end.

Notation "x <- c ;; k" := (bind c (fun x => k))
  (at level 61, c at next level, right associativity).

Fixpoint mapM {A B} (f : A -> res B) (l : list A) : res (list B) :=
  match l with
  | [] => Ok []
  | x :: l' => y <- f x ;; ys <- mapM f l' ;; Ok (y :: ys)
  end.

(** ** The regular expression matcher *)

Module Regex.

(** The fragment of the pattern language that src/main.ts uses. *)
Inductive regex :=
| Empty
| Char (c : char)                 (* a literal character *)
| Dot                             (* .       *)
| NotChar (c : char)              (* [^c]    *)
| LineStart                       (* ^  with the m flag *)
| LineEnd                         (* $  with the m flag *)
| NotAfter (c : char)             (* (?<!c)  *)
| Ahead (r : regex)               (* (?=r)   *)
| Seq (r1 r2 : regex)
| Alt (r1 r2 : regex)             (* r1|r2   *)
| Star (greedy : bool) (r : regex) (* r* and r*? *)
| Opt (r : regex)                 (* r?      *)
| Capture (n : nat) (r : regex).  (* the n-th capturing group *)

(** The matcher walks the input with the part already read ([before],
    nearest character first) and the part still to read ([after]); [caps] is
    the array of captures, [None] for a group that did not take part. *)
Record mstate := MState {
  before : str;
  after : str;
  caps : list (option str)
}.

Definition endIndex (st : mstate) : nat := length (before st).

Definition outcome := res (option mstate).
Definition cont := mstate -> outcome.
Definition matcher := mstate -> cont -> outcome.

(** Backtracking: the second alternative runs only when the first one fails. *)
Notation "a <|> b" :=
  (match a with
   | Ok (Some st) => Ok (Some st)
   | Ok None => b
   | Err e => Err e
   end)
  (at level 70, right associativity).

Definition step1 (p : char -> bool) (st : mstate) (k : cont) : outcome :=
  match after st with
  | c :: s => if p c then k (MState (c :: before st) s (caps st)) else Ok None
  | [] => Ok None
  end.

Fixpoint upd {A} (n : nat) (v : A) (l : list A) : list A :=
  match l, n with
  | [], _ => []
  | _ :: l', 0 => v :: l'
  | x :: l', S n' => x :: upd n' v l'
  end.

(** The characters read between two states of one match. *)
Definition consumed (st st' : mstate) : str :=
  firstn (endIndex st' - endIndex st) (after st).

(** RepeatMatcher with min = 0 and max = infinity.  An iteration that reads
    nothing is refused, as ECMAScript does; the fuel is the model's, one unit
    per iteration.  (No repeated pattern of src/main.ts holds a capturing
    group, so there is no capture to reset between iterations.) *)
Fixpoint repeat_loop (greedy : bool) (body : matcher) (fuel : nat)
    (st : mstate) (k : cont) : outcome :=
  match fuel with
  | 0 => Err OutOfFuel
  | S fuel' =>
      let again st' :=
        if endIndex st' =? endIndex st then Ok None
        else repeat_loop greedy body fuel' st' k in
      if greedy then body st again <|> k st
      else k st <|> body st again
  end.

Fixpoint m (r : regex) (st : mstate) (k : cont) {struct r} : outcome :=
  match r with
  | Empty => k st
  | Char c => step1 (fun x => (x =? c)%N) st k
  | Dot => step1 not_lt st k
  | NotChar c => step1 (fun x => negb (x =? c)%N) st k
  | LineStart =>
      match before st with
      | [] => k st
      | c :: _ => if is_lt c then k st else Ok None
      end
  | LineEnd =>
      match after st with
      | [] => k st
      | c :: _ => if is_lt c then k st else Ok None
      end
  | NotAfter c =>
      match before st with
      | [] => k st
      | x :: _ => if (x =? c)%N then Ok None else k st
      end
  | Ahead r' =>
      match m r' st (fun st' => Ok (Some st')) with
      | Ok (Some st') => k (MState (before st) (after st) (caps st'))
      | other => other
      end
  | Seq r1 r2 => m r1 st (fun st' => m r2 st' k)
  | Alt r1 r2 => m r1 st k <|> m r2 st k
  | Star greedy r' => repeat_loop greedy (m r') (S (length (after st))) st k
  | Opt r' =>
      m r' st (fun st' => if endIndex st' =? endIndex st then Ok None else k st')
      <|> k st
  | Capture n r' =>
      m r' st (fun st' =>
        k (MState (before st') (after st') (upd n (Some (consumed st st')) (caps st'))))
  end.

(** The number of capturing groups: the largest group index. *)
Fixpoint ngroups (r : regex) : nat :=
  match r with
  | Ahead r' | Star _ r' | Opt r' => ngroups r'
  | Seq r1 r2 | Alt r1 r2 => Nat.max (ngroups r1) (ngroups r2)
  | Capture n r' => Nat.max n (ngroups r')
  | _ => 0
  end.

Definition accept : cont := fun st => Ok (Some st).

(** One attempt at the current position (a sticky match). *)
Definition match_here (r : regex) (pre suf : str) : outcome :=
  m r (MState pre suf (repeat None (S (ngroups r)))) accept.

(** A match array: index 0 is the whole match, index n the n-th group. *)
Definition match_array := list (option str).

Definition finish (pre suf : str) (st : mstate) : mstate :=
  MState (before st) (after st)
         (upd 0 (Some (consumed (MState pre suf []) st)) (caps st)).

(** RegExpBuiltinExec without the sticky flag: try [lastIndex], then every
    later index up to the length of the string. *)
Fixpoint exec (r : regex) (pre suf : str) : outcome :=
  match match_here r pre suf with
  | Ok (Some st) => Ok (Some (finish pre suf st))
  | Ok None =>
      match suf with
      | [] => Ok None
      | c :: suf' => exec r (c :: pre) suf'
      end
  | Err e => Err e
  end.

(** The iterator behind [matchAll] for a global regular expression: after a
    match, [lastIndex] is the end of the match, one further when the match is
    empty.  One unit of fuel per call of [exec]. *)
Fixpoint matchAll_from (fuel : nat) (r : regex) (pre suf : str)
    : res (list match_array) :=
  match fuel with
  | 0 => Err OutOfFuel
  | S fuel' =>
      match exec r pre suf with
      | Err e => Err e
      | Ok None => Ok []
      | Ok (Some st) =>
          match nth 0 (caps st) None, after st with
          | Some [], [] => Ok [caps st]
          | Some [], c :: s =>
              rest <- matchAll_from fuel' r (c :: before st) s ;;
              Ok (caps st :: rest)
          | _, _ =>
              rest <- matchAll_from fuel' r (before st) (after st) ;;
              Ok (caps st :: rest)
          end
      end
  end.

Definition matchAll (r : regex) (s : str) : res (list match_array) :=
  matchAll_from (S (length s)) r [] s.

(** RegExp.prototype[Symbol.split] without a limit, for a splitter that has no
    capturing group (nothing but the pieces is pushed).  [seg] holds, nearest
    first, the characters between the end of the last separator (p) and the
    position tried (q); [pre] and [suf] are the input around q. *)
Fixpoint split_loop (fuel : nat) (r : regex) (seg pre suf : str)
    : res (list str) :=
  match fuel with
  | 0 => Err OutOfFuel
  | S fuel' =>
      match suf with
      | [] => Ok [rev seg]
      | c :: suf' =>
          match match_here r pre suf with
          | Err e => Err e
          | Ok None => split_loop fuel' r (c :: seg) (c :: pre) suf'
          | Ok (Some st) =>
              if endIndex st =? length pre - length seg
              then split_loop fuel' r (c :: seg) (c :: pre) suf'
              else
                rest <- split_loop fuel' r [] (before st) (after st) ;;
                Ok (rev seg :: rest)
          end
      end
  end.

Definition split (r : regex) (s : str) : res (list str) :=
  match s with
  | [] =>
      match match_here r [] [] with
      | Err e => Err e
      | Ok None => Ok [[]]
      | Ok (Some _) => Ok []
      end
  | _ => split_loop (2 * length s + 2) r [] [] s
  end.

End Regex.

Import Regex.

(** ** String.prototype.replace with a string pattern *)

Fixpoint starts_with (pat s : str) : bool :=
  match pat, s with
  | [], _ => true
  | p :: pat', c :: s' => (c =? p)%N && starts_with pat' s'
  | _ :: _, [] => false
  end.

(** [s.replace(pat, rep)] for a string [pat]: only the first occurrence of
    [pat] is replaced.  ([rep] is taken literally: the two replacement texts of
    src/main.ts contain no [$].) *)
Fixpoint replace (pat rep s : str) : str :=
  if starts_with pat s then rep ++ skipn (length pat) s
  else match s with
       | [] => []
       | c :: s' => c :: replace pat rep s'
       end.

(** ** The data model of src/main.ts *)

Record Thumbnail := { url : str; description : option str }.

(** [value: string | string[]] *)
Inductive Value :=
| VString (s : str)
| VList (l : list str).

Record TableEntry := { key : str; value : Value }.

Record Group := { name : str; entries : list TableEntry }.

Record AsyncTable := { thumbnails : list Thumbnail; groups : list Group }.

(** ** The regular expressions of [formatTable] *)

Declare Scope regex_scope.
Delimit Scope regex_scope with re.
Infix "++" := Seq (right associativity, at level 60) : regex_scope.

(** The thumbnail pattern, flags gm:  ^ ! ( .*? ) (?: (?<!\\) \| ( .* ) )? $  *)
Definition thumbnail_re : regex :=
  (LineStart ++ Char ch_bang ++ Capture 1 (Star false Dot)
   ++ Opt (NotAfter ch_bslash ++ Char ch_pipe ++ Capture 2 (Star true Dot))
   ++ LineEnd)%re.

(** The group pattern, flags gm:  ^ # ( .* ) \n - ( (?: [^#] | \n )* ) (?= # | $ )  *)
Definition group_re : regex :=
  (LineStart ++ Char ch_hash ++ Capture 1 (Star true Dot)
   ++ Char ch_nl ++ Char ch_dash
   ++ Capture 2 (Star true (Alt (NotChar ch_hash) (Char ch_nl)))
   ++ Ahead (Alt (Char ch_hash) LineEnd))%re.

(** The entry pattern, flags gm:  ^ - ( .*? ) (?<!\\) : ( .* ) $  *)
Definition entry_re : regex :=
  (LineStart ++ Char ch_dash ++ Capture 1 (Star false Dot)
   ++ NotAfter ch_bslash ++ Char ch_colon ++ Capture 2 (Star true Dot)
   ++ LineEnd)%re.

(** The separator pattern of the values, flag g:  (?<!\\) ;  *)
Definition semi_re : regex := (NotAfter ch_bslash ++ Char ch_semi)%re.

(** ** [formatTable] *)

(** [match[i]] where the code needs a string: [undefined] there is a TypeError
    (a method call on it) or a value outside the declared type. *)
Definition get_string (a : match_array) (i : nat) : res str :=
  match nth i a None with
  | Some s => Ok s
  | None => Err TypeError
  end.

Section FormatTable.

(** The link resolver of the host application, [this.getImageLink]. *)
Variable getImageLink : str -> str.

(** The callback of the thumbnail matches (lines 127-130). *)
Definition thumbnail_of_match (mt : match_array) : res Thumbnail :=
  u <- get_string mt 1 ;;
  Ok {| url := getImageLink u; description := nth 2 mt None |}.

(** [value.length === 1 ? value[0] : value] *)
Definition value_of (segments : list str) : Value :=
  if length segments =? 1 then VString (nth 0 segments []) else VList segments.

(** The callback of the entry matches (lines 133-138). *)
Definition entry_of_match (entryMatch : match_array) : res TableEntry :=
  k <- get_string entryMatch 1 ;;
  v <- get_string entryMatch 2 ;;
  segments <- split semi_re v ;;
  Ok {| key := replace [ch_bslash; ch_colon] [ch_colon] k;
        value := value_of
                   (List.map (replace [ch_bslash; ch_semi] [ch_semi]) segments) |}.

(** [[...groupMatch[2].matchAll(entry_re)].map(...)] *)
Definition parse_entries (region : str) : res (list TableEntry) :=
  ms <- matchAll entry_re region ;;
  mapM entry_of_match ms.

(** The callback of the group matches (lines 132-141). *)
Definition group_of_match (groupMatch : match_array) : res Group :=
  region <- get_string groupMatch 2 ;;
  es <- parse_entries region ;;
  n <- get_string groupMatch 1 ;;
  Ok {| name := n; entries := es |}.

Definition parse_thumbnails (source : str) : res (list Thumbnail) :=
  ms <- matchAll thumbnail_re source ;;
  mapM thumbnail_of_match ms.

Definition parse_groups (source : str) : res (list Group) :=
  ms <- matchAll group_re source ;;
  mapM group_of_match ms.

Definition formatTable (source : str) : res AsyncTable :=
  ts <- parse_thumbnails source ;;
  gs <- parse_groups source ;;
  Ok {| thumbnails := ts; groups := gs |}.

End FormatTable.

(** ** The patterns read by hand

    What each pattern of [formatTable] matches at a position, written as
    functions on the text; the theorems below prove that the matcher agrees
    with them. *)

(** Whether a position starts a line: nothing, or a line terminator, is
    before it ([pre] is the text before the position, nearest first). *)
Definition bol (pre : str) : bool :=
  match pre with
  | [] => true
  | c :: _ => is_lt c
  end.

(** Whether a backslash stands right before a position. *)
Definition escaped (pre : str) : bool :=
  match pre with
  | [] => false
  | c :: _ => (c =? ch_bslash)%N
  end.

(** The longest prefix of [s] whose characters satisfy [p], and the rest. *)
Fixpoint take_while (p : char -> bool) (s : str) : str :=
  match s with
  | [] => []
  | c :: s' => if p c then c :: take_while p s' else []
  end.

Fixpoint drop_while (p : char -> bool) (s : str) : str :=
  match s with
  | [] => []
  | c :: s' => if p c then drop_while p s' else s
  end.

Definition not_hash (c : char) : bool := negb (c =? ch_hash)%N.

(** The rest of the current line, and the input from its terminator on. *)
Definition line_head : str -> str := take_while not_lt.
Definition line_tail : str -> str := drop_while not_lt.

(** The first [sep] of the current line that no backslash precedes: the text
    before it and the text after it.  [esc] tells whether the character before
    [s] is a backslash. *)
Fixpoint find_sep (sep : char) (esc : bool) (s : str) : option (str * str) :=
  match s with
  | [] => None
  | c :: s' =>
      if is_lt c then None
      else if (c =? sep)%N && negb esc then Some ([], s')
      else match find_sep sep (c =? ch_bslash)%N s' with
           | Some (a, b) => Some (c :: a, b)
           | None => None
           end
  end.

(** Whether a state is at the end of a line. *)
Definition at_eol (st : mstate) : bool :=
  match after st with
  | [] => true
  | c :: _ => is_lt c
  end.

(** A lazy [.*?] tries what follows at every position of the line in turn. *)
Fixpoint lazy_scan (k : cont) (pre s : str) (c0 : list (option str)) : outcome :=
  k (MState pre s c0)
  <|> match s with
      | c :: s' => if not_lt c then lazy_scan k (c :: pre) s' c0 else Ok None
      | [] => Ok None
      end.

(** The entry pattern after its group 1. *)
Definition entry_tail_re : regex :=
  (NotAfter ch_bslash ++ Char ch_colon ++ Capture 2 (Star true Dot) ++ LineEnd)%re.

(** What the entry pattern reads from a line start: the key text, the value
    text and the input left after the line. *)
Definition entry_at (suf : str) : option (str * str * str) :=
  match suf with
  | c :: s =>
      if (c =? ch_dash)%N
      then match find_sep ch_colon false s with
           | Some (k, r) => Some (k, line_head r, line_tail r)
           | None => None
           end
      else None
  | [] => None
  end.

(** The thumbnail pattern after its group 1. *)
Definition thumb_tail_re : regex :=
  (Opt (NotAfter ch_bslash ++ Char ch_pipe ++ Capture 2 (Star true Dot))
   ++ LineEnd)%re.

(** What the thumbnail pattern reads after the [!]: the URL text, the
    description when an unescaped [|] is found, and the input left after the
    line.  [esc] tells whether the character before [s] is a backslash. *)
Fixpoint thumb_split (esc : bool) (s : str) : str * option str * str :=
  match s with
  | [] => ([], None, [])
  | c :: s' =>
      if (c =? ch_pipe)%N && negb esc then ([], Some (line_head s'), line_tail s')
      else if is_lt c then ([], None, s)
      else let '(u, d, t) := thumb_split (c =? ch_bslash)%N s' in (c :: u, d, t)
  end.

(** The text of a thumbnail line after its URL. *)
Definition desc_text (d : option str) : str :=
  match d with
  | Some x => ch_pipe :: x
  | None => []
  end.

(** Group 2 of a thumbnail match is set only when there is a description. *)
Definition set_desc (d : option str) (c0 : list (option str)) :=
  match d with
  | Some x => upd 2 (Some x) c0
  | None => c0
  end.

(** The match of the thumbnail pattern on the text after a [!]. *)
Definition thumb_state (pre s : str) : mstate :=
  let '(u, d, t) := thumb_split false s in
  MState (rev (desc_text d) ++ rev u ++ ch_bang :: pre) t
         (set_desc d [None; Some u; None]).

(** The repeated body of group 2 of the group pattern, and its lookahead. *)
Definition region_body : regex := Alt (NotChar ch_hash) (Char ch_nl).

Definition group_end_re : regex := Ahead (Alt (Char ch_hash) LineEnd).

(** What the group pattern reads from a line start: the header text, the
    region (group 2) and the input left after the region. *)
Definition group_at (suf : str) : option (str * str * str) :=
  match suf with
  | c :: s =>
      if (c =? ch_hash)%N
      then match line_tail s with
           | a :: b :: r =>
               if (a =? ch_nl)%N && (b =? ch_dash)%N
               then Some (line_head s, take_while not_hash r, drop_while not_hash r)
               else None
           | _ => None
           end
      else None
  | [] => None
  end.

(** ** The matches of a pattern, from its match at each position *)

Section Matches.

(** [here pre suf]: the text matched at this position, the input left after
    it, and the groups. *)
Variable here : str -> str -> option (str * str * list (option str)).

(** The first match at or after a position: where it ends and its array. *)
Fixpoint find_match (pre suf : str) : option (str * str * match_array) :=
  match here pre suf with
  | Some (a, t, cs) => Some (rev a ++ pre, t, Some a :: cs)
  | None =>
      match suf with
      | [] => None
      | c :: s => find_match (c :: pre) s
      end
  end.

(** All the matches from a position on, in order. *)
Inductive matches_from : str -> str -> list match_array -> Prop :=
| mf_done pre suf :
    find_match pre suf = None -> matches_from pre suf []
| mf_next pre suf p t arr l :
    find_match pre suf = Some (p, t, arr) ->
    matches_from p t l ->
    matches_from pre suf (arr :: l).

End Matches.

(** ** Lines, entries, thumbnails and groups read off the text *)

(** The lines of a text: it is cut at every line terminator. *)
Fixpoint lines (s : str) : list str :=
  match s with
  | [] => [[]]
  | c :: s' =>
      if is_lt c then [] :: lines s'
      else match lines s' with
           | l :: ls => (c :: l) :: ls
           | [] => [[c]]
           end
  end.

(** The match arrays of a line, for a pattern that matches whole lines. *)
Definition line_matches (on_line : str -> option (list (option str)))
    (l : str) : list match_array :=
  match on_line l with
  | Some cs => [Some l :: cs]
  | None => []
  end.

(** The pieces of [s] between the [;] that no backslash precedes.  [esc]
    tells whether the character before [s] is a backslash. *)
Fixpoint split_semi (esc : bool) (s : str) : list str :=
  match s with
  | [] => [[]]
  | c :: s' =>
      if (c =? ch_semi)%N && negb esc then [] :: split_semi false s'
      else match split_semi (c =? ch_bslash)%N s' with
           | l :: ls => (c :: l) :: ls
           | [] => [[c]]
           end
  end.

(** The match of the entry pattern at a position, and on a whole line. *)
Definition entry_here_f (pre suf : str) : option (str * str * list (option str)) :=
  if bol pre
  then match entry_at suf with
       | Some (k, v, t) => Some (ch_dash :: k ++ ch_colon :: v, t, [Some k; Some v])
       | None => None
       end
  else None.

Definition entry_on_line (l : str) : option (list (option str)) :=
  match entry_at l with
  | Some (k, v, _) => Some [Some k; Some v]
  | None => None
  end.

(** The two decodings of [entry_of_match]. *)
Definition decode_key (k : str) : str := replace [ch_bslash; ch_colon] [ch_colon] k.
Definition decode_value (v : str) : str := replace [ch_bslash; ch_semi] [ch_semi] v.

(** The entry made from a key text and a value text. *)
Definition mk_entry (k v : str) : TableEntry :=
  {| key := decode_key k;
     value := value_of (List.map decode_value (split_semi false v)) |}.

(** The entries that a line of a region gives: one or none. *)
Definition entry_of_line (l : str) : list TableEntry :=
  match entry_at l with
  | Some (k, v, _) => [mk_entry k v]
  | None => []
  end.

(** The match of the thumbnail pattern at a position, and on a whole line. *)
Definition thumb_here_f (pre suf : str) : option (str * str * list (option str)) :=
  if bol pre
  then match suf with
       | c :: s =>
           if (c =? ch_bang)%N
           then let '(u, d, t) := thumb_split false s in
                Some (ch_bang :: u ++ desc_text d, t, [Some u; d])
           else None
       | [] => None
       end
  else None.

Definition thumb_on_line (l : str) : option (list (option str)) :=
  match l with
  | c :: s =>
      if (c =? ch_bang)%N
      then let '(u, d, _) := thumb_split false s in Some [Some u; d]
      else None
  | [] => None
  end.

(** The thumbnail that a line of the source gives: one or none. *)
Definition thumbnail_of_line (getImageLink : str -> str) (l : str)
    : list Thumbnail :=
  match l with
  | c :: s =>
      if (c =? ch_bang)%N
      then let '(u, d, _) := thumb_split false s in
           [{| url := getImageLink u; description := d |}]
      else []
  | [] => []
  end.

(** The match of the group pattern at a position. *)
Definition group_here_f (pre suf : str) : option (str * str * list (option str)) :=
  if bol pre
  then match group_at suf with
       | Some (n, region, t) =>
           Some (ch_hash :: n ++ ch_nl :: ch_dash :: region, t, [Some n; Some region])
       | None => None
       end
  else None.

(** The group made from a header text and a region. *)
Definition group_of (n region : str) : Group :=
  {| name := n; entries := flat_map entry_of_line (lines region) |}.

(** Whether the position after a match of the group pattern starts a line. *)
Definition bol_after (region : str) : bool := bol (rev region ++ [ch_dash]).

(** The groups found from a position on; the flag tells whether the position
    starts a line. *)
Inductive groups_from : bool -> str -> list Group -> Prop :=
| gf_end b : groups_from b [] []
| gf_skip b c s gs :
    b = false \/ group_at (c :: s) = None ->
    groups_from (is_lt c) s gs ->
    groups_from b (c :: s) gs
| gf_hit suf n region t gs :
    group_at suf = Some (n, region, t) ->
    groups_from (bol_after region) t gs ->
    groups_from true suf (group_of n region :: gs).

(** ** Predicates used in the statements *)

(** The text is empty or starts with [#]. *)
Definition hash_or_end (x : str) : bool :=
  match x with
  | [] => true
  | c :: _ => (c =? ch_hash)%N
  end.

(** Whether the end of [a] starts a line, [b] telling it for its beginning. *)
Fixpoint bol_end (b : bool) (a : str) : bool :=
  match a with
  | [] => b
  | c :: a' => bol_end (is_lt c) a'
  end.

(** Whether the end of [a] is inside a line that starts with [#].  [h] tells
    it, and [b] whether a line starts, for the beginning of [a]. *)
Fixpoint in_header (h b : bool) (a : str) : bool :=
  match a with
  | [] => h
  | c :: a' =>
      if is_lt c then in_header false true a'
      else in_header (if b then (c =? ch_hash)%N else h) false a'
  end.

(** A text with no line terminator in it. *)
Definition line_ok (l : str) : bool := forallb not_lt l.

(** The resolver of a vault in which no link resolves: [getImageLink] gives
    its argument back. *)
Definition no_links : str -> str := fun x => x.


(** Whether [pat] occurs in [s]. *)
Fixpoint occurs (pat s : str) : bool :=
  starts_with pat s
  || match s with
     | [] => false
     | _ :: s' => occurs pat s'
     end.

(** A line with no line terminator and no [#] in it. *)
Definition plain_line (l : str) : bool :=
  forallb (fun c => not_lt c && not_hash c) l.

(** What may follow the last line of a region: nothing, or a line feed and
    then a header line or the end of the input. *)
Definition region_end (tail : str) : bool :=
  match tail with
  | [] => true
  | c :: x => (c =? ch_nl)%N && hash_or_end x
  end.

(** Whether [s] holds a [sep] that no backslash precedes.  [esc] tells
    whether the character before [s] is a backslash. *)
Fixpoint unescaped_in (sep : char) (esc : bool) (s : str) : bool :=
  match s with
  | [] => false
  | c :: s' => ((c =? sep)%N && negb esc) || unescaped_in sep (c =? ch_bslash)%N s'
  end.

(** Whether the last character of [s] is a backslash. *)
Definition ends_with_bslash (s : str) : bool := escaped (rev s).

(** ** Patterns without the [m] flag *)

Module Flagless.

(** A pattern of a regular expression that has no [m] flag: [^] and [$] stand
    for the two ends of the input; everything else ([Plain], which must hold
    neither [LineStart] nor [LineEnd]) means what it means in [Regex]. *)
Inductive pattern :=
| InputStart                      (* ^  without the m flag *)
| InputEnd                        (* $  without the m flag *)
| Plain (r : regex)
| Then (p q : pattern).

Fixpoint pm (p : pattern) (st : mstate) (k : cont) {struct p} : outcome :=
  match p with
  | InputStart =>
      match before st with
      | [] => k st
      | _ :: _ => Ok None
      end
  | InputEnd =>
      match after st with
      | [] => k st
      | _ :: _ => Ok None
      end
  | Plain r => m r st k
  | Then p1 p2 => pm p1 st (fun st' => pm p2 st' k)
  end.

Fixpoint pgroups (p : pattern) : nat :=
  match p with
  | Plain r => ngroups r
  | Then p1 p2 => Nat.max (pgroups p1) (pgroups p2)
  | _ => 0
  end.

Definition pmatch_here (p : pattern) (pre suf : str) : outcome :=
  pm p (MState pre suf (repeat None (S (pgroups p)))) accept.

(** RegExpBuiltinExec, as [Regex.exec]. *)
Fixpoint pexec (p : pattern) (pre suf : str) : outcome :=
  match pmatch_here p pre suf with
  | Ok (Some st) => Ok (Some (finish pre suf st))
  | Ok None =>
      match suf with
      | [] => Ok None
      | c :: suf' => pexec p (c :: pre) suf'
      end
  | Err e => Err e
  end.

(** [s.match(p)] for a regular expression without the [g] flag: the first
    match from index 0 on, or [null]. *)
Definition js_match (p : pattern) (s : str) : res (option match_array) :=
  match pexec p [] s with
  | Ok (Some st) => Ok (Some (caps st))
  | Ok None => Ok None
  | Err e => Err e
  end.

End Flagless.

Import Flagless.

(** ** The code block processor of [onload] (lines 40-89) *)

Definition ch_lbr : char := 91%N.        (* [ *)
Definition ch_rbr : char := 93%N.        (* ] *)

(** The link pattern of line 65, no flag:
    ^ \[\[ ( .*? ) (?: (?<!\\) \| ( .*? ) )? ]] $  *)
Definition link_re : pattern :=
  Then InputStart
    (Then (Plain (Char ch_lbr ++ Char ch_lbr ++ Capture 1 (Star false Dot)
                  ++ Opt (NotAfter ch_bslash ++ Char ch_pipe
                          ++ Capture 2 (Star false Dot))
                  ++ Char ch_rbr ++ Char ch_rbr)%re)
          InputEnd).

(** What the processor builds: an element with its tag, its class, its text,
    its attributes in the order they are set, and its children in the order
    they are created ([createEl], [createDiv] and [createSpan] of the host
    append the new element to the element they are called on).  The [title]
    property of an image is kept as the attribute of that name. *)
#[warnings="-register-all"]
Inductive Node :=
| Elem (tag cls : String.string) (text : option str)
       (attrs : list (String.string * str)) (children : list Node).

Definition children_of (n : Node) : list Node :=
  match n with Elem _ _ _ _ cs => cs end.

Definition attrs_of (n : Node) : list (String.string * str) :=
  match n with Elem _ _ _ a _ => a end.

Definition text_of (n : Node) : option str :=
  match n with Elem _ _ t _ _ => t end.

Definition tag_of (n : Node) : String.string :=
  match n with Elem t _ _ _ _ => t end.

Local Open Scope string_scope.

Section Processor.

(** [this.getImageLink], [this.getNoteLink] and [this.settings.headerColor]. *)
Variable getImageLink : str -> str.
Variable getNoteLink : str -> str.
Variable headerColor : str.

(** Lines 47-49: the tile of a thumbnail; the title is set only when the
    description is truthy, that is, present and not empty. *)
Definition render_thumbnail (thumbnail : Thumbnail) : Node :=
  Elem "div" "aside-table-thumbnail" None []
    [Elem "img" "" None
       (("src", url thumbnail)
        :: match description thumbnail with
           | Some (c :: d) => [("title", c :: d)]
           | _ => []
           end)
       []].

(** Lines 66-77: the anchor of a link value. *)
Definition render_link (isLink : match_array) : res Node :=
  target <- get_string isLink 1 ;;
  let note := getNoteLink target in
  Ok (Elem "a" "internal-link aside-table-entry-value"
        (Some match nth 2 isLink None with
              | Some label => label
              | None => note
              end)
        [("href", note); ("data-href", note);
         ("target", lit "_blank"); ("rel", lit "noopener")]
        []).

(** Lines 64-86: the element of the value of an entry. *)
Definition render_value (v : Value) : res Node :=
  match v with
  | VString s =>
      isLink <- js_match link_re s ;;
      match isLink with
      | Some a => render_link a
      | None => Ok (Elem "span" "aside-table-entry-value" (Some s) [] [])
      end
  | VList l =>
      Ok (Elem "ul" "aside-table-entry-value aside-table-entry-list" None []
            (List.map (fun value => Elem "li" "" (Some value) [] []) l))
  end.

(** Lines 62-86: the row of an entry. *)
Definition render_entry (entry : TableEntry) : res Node :=
  entryValue <- render_value (value entry) ;;
  Ok (Elem "div" "aside-table-entry" None []
        [Elem "strong" "aside-table-entry-key" (Some (key entry)) [] [];
         entryValue]).

(** Lines 54-87: the header of a group, then the rows of its entries; all of
    them are children of the container. *)
Definition render_group (group : Group) : res (list Node) :=
  rows <- mapM render_entry (entries group) ;;
  Ok (Elem "div" "aside-table-group-header" (Some (name group))
        [("style", lit "background-color: " ++ headerColor)] []
      :: rows).

(** Lines 40-89: the container that the processor appends to its block. *)
Definition processor (source : str) : res Node :=
  table <- formatTable getImageLink source ;;
  rows <- mapM render_group (groups table) ;;
  Ok (Elem "span" "aside-table-container" None []
        (Elem "div" "aside-table-thumbnails" None []
           (List.map render_thumbnail (thumbnails table))
         :: concat rows)).

End Processor.

(** ** The two link resolvers (lines 146-155) *)

Module Vault.

(** A file of the vault: its path, and the base path of the vault adapter. *)
Record TFile := { path : str; basePath : str }.

Section Resolvers.

(** [this.app.metadataCache.getFirstLinkpathDest(name, "")], [None] for
    [null], and [this.app.metadataCache.fileToLinktext(file, "")]. *)
Variable getFirstLinkpathDest : str -> option TFile.
Variable fileToLinktext : TFile -> str.

Definition getNoteLink (noteName : str) : str :=
  match getFirstLinkpathDest noteName with
  | Some note => fileToLinktext note
  | None => noteName
  end.

Definition getImageLink (imageName : str) : str :=
  match getFirstLinkpathDest imageName with
  | Some image => lit "app://local/" ++ basePath image ++ lit "/" ++ path image
  | None => imageName
  end.

End Resolvers.

End Vault.

Local Close Scope string_scope.

(** ** The link pattern read by hand *)

(** Whether a text is exactly []]]. *)
Definition closes (s : str) : bool :=
  match s with
  | [a; b] => (a =? ch_rbr)%N && (b =? ch_rbr)%N
  | _ => false
  end.

(** What group 2 of the link pattern reads: the text up to the []]] that ends
    the input. *)
Fixpoint label_of (s : str) : option str :=
  if closes s then Some []
  else match s with
       | c :: s' =>
           if not_lt c
           then match label_of s' with
                | Some l => Some (c :: l)
                | None => None
                end
           else None
       | [] => None
       end.

(** What the link pattern reads after [[[]: the target and, when a [|] that
    no backslash precedes is found, the label.  [esc] tells whether the
    character before [s] is a backslash. *)
Fixpoint link_split (esc : bool) (s : str) : option (str * option str) :=
  match s with
  | [] => None
  | c :: s' =>
      match (if (c =? ch_pipe)%N && negb esc then label_of s' else None) with
      | Some l => Some ([], Some l)
      | None =>
          if closes s then Some ([], None)
          else if not_lt c
               then match link_split (c =? ch_bslash)%N s' with
                    | Some (t, l) => Some (c :: t, l)
                    | None => None
                    end
               else None
      end
  end.

(** The target and the label of a value that has the shape of a link. *)
Definition link_parts (v : str) : option (str * option str) :=
  match v with
  | a :: b :: s =>
      if (a =? ch_lbr)%N && (b =? ch_lbr)%N then link_split false s else None
  | _ => None
  end.

(** The optional part of the link pattern. *)
Definition link_opt_re : regex :=
  (NotAfter ch_bslash ++ Char ch_pipe ++ Capture 2 (Star false Dot))%re.

(** ** Predicates and functions used in the further statements *)

(** [l.join(sep)] *)
Fixpoint join_with (sep : str) (l : list str) : str :=
  match l with
  | [] => []
  | [x] => x
  | x :: l' => x ++ sep ++ join_with sep l'
  end.

(** The texts of a value: the string, or the elements of the list. *)
Definition value_texts (v : Value) : list str :=
  match v with
  | VString s => [s]
  | VList l => l
  end.

(** Whether every line feed of [s] comes right after a carriage return.
    [prev] tells whether the character before [s] is a carriage return. *)
Fixpoint crlf_only (prev : bool) (s : str) : bool :=
  match s with
  | [] => true
  | c :: s' => (negb (c =? ch_nl)%N || prev) && crlf_only (c =? ch_cr)%N s'
  end.

(** A text in which the character [x] does not occur. *)
Definition without (x : char) (s : str) : bool :=
  forallb (fun c => negb (c =? x)%N) s.

(** A character that is neither a line terminator nor [#]. *)
Definition plain_char (c : char) : Prop := not_lt c = true /\ not_hash c = true.

(** The text [m] between double square brackets. *)
Definition bracketed (m : str) : str := ch_lbr :: ch_lbr :: m ++ [ch_rbr; ch_rbr].

(** * Theorems *)

Lemma mapM_app {A B} (f : A -> res B) l1 l2 :
  mapM f (l1 ++ l2)
  = (a <- mapM f l1 ;; b <- mapM f l2 ;; Ok (a ++ b)).
Proof.
  induction l1 as [|x l1 IH]; cbn [app mapM bind].
  - now destruct (mapM f l2).
  - destruct (f x); [|reflexivity]. cbn [bind]. rewrite IH.
    destruct (mapM f l1); [|reflexivity]. cbn [bind].
    now destruct (mapM f l2).
Qed.

Lemma mapM_flat_map {A B C} (f : B -> res C) (g : A -> list B) (h : A -> list C) ls :
  (forall a, mapM f (g a) = Ok (h a)) ->
  mapM f (flat_map g ls) = Ok (flat_map h ls).
Proof.
  intros H. induction ls as [|a ls IH]; [reflexivity|].
  cbn [flat_map]. now rewrite mapM_app, H, IH.
Qed.

(** ** What the text between two positions is *)

Lemma take_drop_while p s : take_while p s ++ drop_while p s = s.
Proof.
  induction s as [|c s IH]; simpl; [reflexivity|].
  destruct (p c); simpl; [now rewrite IH | reflexivity].
Qed.

Lemma take_while_all p s : Forall (fun c => p c = true) (take_while p s).
Proof.
  induction s as [|c s IH]; simpl; [constructor|].
  destruct (p c) eqn:E; constructor; assumption.
Qed.

Lemma drop_while_head p s :
  match drop_while p s with [] => True | c :: _ => p c = false end.
Proof.
  induction s as [|c s IH]; simpl; [exact I|].
  destruct (p c) eqn:E; [exact IH | exact E].
Qed.

Lemma take_while_app p a b :
  Forall (fun c => p c = true) a ->
  take_while p (a ++ b) = a ++ take_while p b.
Proof.
  induction 1 as [|c a Hc _ IH]; simpl; [reflexivity|].
  now rewrite Hc, IH.
Qed.

Lemma drop_while_app p a b :
  Forall (fun c => p c = true) a ->
  drop_while p (a ++ b) = drop_while p b.
Proof.
  induction 1 as [|c a Hc _ IH]; simpl; [reflexivity|].
  now rewrite Hc.
Qed.

Lemma take_while_stop p s :
  match s with [] => True | c :: _ => p c = false end -> take_while p s = [].
Proof. destruct s as [|c s]; simpl; [reflexivity|]. now intros ->. Qed.

Lemma drop_while_stop p s :
  match s with [] => True | c :: _ => p c = false end -> drop_while p s = s.
Proof. destruct s as [|c s]; simpl; [reflexivity|]. now intros ->. Qed.

Lemma consumed_app a b p c1 c2 :
  consumed (MState p (a ++ b) c1) (MState (rev a ++ p) b c2) = a.
Proof.
  unfold consumed, endIndex; simpl.
  rewrite length_app, length_rev.
  replace (length a + length p - length p) with (length a) by lia.
  rewrite firstn_app, firstn_all, Nat.sub_diag; simpl.
  apply app_nil_r.
Qed.

Lemma consumed_take_while q p s c1 c2 :
  consumed (MState p s c1) (MState (rev (take_while q s) ++ p) (drop_while q s) c2)
  = take_while q s.
Proof.
  rewrite <- (take_drop_while q s) at 1. apply consumed_app.
Qed.

(** ** The matcher on the patterns of [formatTable] *)

Lemma orelse_none (x : outcome) : (x <|> Ok None) = x.
Proof. destruct x as [[st|]|e]; reflexivity. Qed.

Lemma repeat_loop_S g body n st k :
  repeat_loop g body (S n) st k
  = let again st' :=
      if endIndex st' =? endIndex st then Ok None
      else repeat_loop g body n st' k in
    if g then body st again <|> k st else k st <|> body st again.
Proof. reflexivity. Qed.

Lemma step1_cons p pre c s c0 k :
  step1 p (MState pre (c :: s) c0) k
  = if p c then k (MState (c :: pre) s c0) else Ok None.
Proof. reflexivity. Qed.

Lemma step1_nil p pre c0 k : step1 p (MState pre [] c0) k = Ok None.
Proof. reflexivity. Qed.

Lemma endIndex_moved c pre s c0 s' c0' :
  (endIndex (MState (c :: pre) s c0) =? endIndex (MState pre s' c0')) = false.
Proof. unfold endIndex; cbn [before length]. apply Nat.eqb_neq. lia. Qed.

Lemma m_Seq r1 r2 st k : m (Seq r1 r2) st k = m r1 st (fun st' => m r2 st' k).
Proof. reflexivity. Qed.

Lemma m_Capture n r st k :
  m (Capture n r) st k
  = m r st (fun st' =>
      k (MState (before st') (after st') (upd n (Some (consumed st st')) (caps st')))).
Proof. reflexivity. Qed.

Lemma m_Star g r st k :
  m (Star g r) st k = repeat_loop g (m r) (S (length (after st))) st k.
Proof. reflexivity. Qed.

Lemma m_Dot st k : m Dot st k = step1 not_lt st k.
Proof. reflexivity. Qed.

Lemma m_Char c st k : m (Char c) st k = step1 (fun x => (x =? c)%N) st k.
Proof. reflexivity. Qed.

Lemma m_LineStart st k :
  m LineStart st k = if bol (before st) then k st else Ok None.
Proof. destruct st as [[|c pre] s c0]; reflexivity. Qed.

Lemma m_LineEnd st k : m LineEnd st k = if at_eol st then k st else Ok None.
Proof. destruct st as [pre [|c s] c0]; reflexivity. Qed.

Lemma m_NotAfter st k :
  m (NotAfter ch_bslash) st k = if escaped (before st) then Ok None else k st.
Proof. destruct st as [[|c pre] s c0]; reflexivity. Qed.

(** A greedy [.*] runs to the end of the line when what follows cannot match
    inside the line. *)
Lemma greedy_dot_loop k caps0 :
  (forall st, at_eol st = false -> k st = Ok None) ->
  forall s pre n, length s < n ->
    repeat_loop true (m Dot) n (MState pre s caps0) k
    = k (MState (rev (line_head s) ++ pre) (line_tail s) caps0).
Proof.
  intros Hk s; induction s as [|c s IH]; intros pre n Hn;
    (destruct n as [|n]; [simpl in Hn; lia|]).
  - reflexivity.
  - simpl in Hn. rewrite repeat_loop_S; cbv zeta.
    rewrite m_Dot, step1_cons.
    unfold line_head, line_tail; cbn [take_while drop_while].
    destruct (not_lt c) eqn:Ec; [|reflexivity].
    rewrite endIndex_moved.
    rewrite (IH (c :: pre) n) by lia.
    rewrite (Hk (MState pre (c :: s) caps0))
      by (unfold at_eol; simpl; unfold not_lt in Ec; now destruct (is_lt c)).
    rewrite orelse_none. cbn [rev]. rewrite <- app_assoc. reflexivity.
Qed.

Lemma greedy_dot st k :
  (forall st', at_eol st' = false -> k st' = Ok None) ->
  m (Star true Dot) st k
  = k (MState (rev (line_head (after st)) ++ before st) (line_tail (after st)) (caps st)).
Proof.
  intros Hk. destruct st as [pre s c0]. rewrite m_Star.
  apply (greedy_dot_loop k c0 Hk s pre). cbn [after]. lia.
Qed.

Lemma lazy_dot_loop k c0 :
  forall s pre n, length s < n ->
    repeat_loop false (m Dot) n (MState pre s c0) k = lazy_scan k pre s c0.
Proof.
  induction s as [|c s IH]; intros pre n Hn;
    (destruct n as [|n]; [simpl in Hn; lia|]).
  - reflexivity.
  - simpl in Hn. rewrite repeat_loop_S; cbv zeta.
    rewrite m_Dot, step1_cons. cbn [lazy_scan].
    destruct (not_lt c); [|reflexivity].
    rewrite endIndex_moved, (IH (c :: pre) n) by lia. reflexivity.
Qed.

Lemma lazy_dot st k :
  m (Star false Dot) st k = lazy_scan k (before st) (after st) (caps st).
Proof.
  destruct st as [pre s c0]. rewrite m_Star.
  apply lazy_dot_loop. cbn [after]. lia.
Qed.

(** The common tail of the thumbnail and entry patterns: a separator that no
    backslash precedes, then the rest of the line as group 2. *)
Lemma sep_tail sep st k :
  (forall st', at_eol st' = false -> k st' = Ok None) ->
  m (NotAfter ch_bslash) st (fun s1 =>
    m (Char sep) s1 (fun s2 => m (Capture 2 (Star true Dot)) s2 k))
  = if escaped (before st) then Ok None
    else match after st with
         | c :: s =>
             if (c =? sep)%N
             then k (MState (rev (line_head s) ++ c :: before st) (line_tail s)
                            (upd 2 (Some (line_head s)) (caps st)))
             else Ok None
         | [] => Ok None
         end.
Proof.
  intros Hk. rewrite m_NotAfter.
  destruct (escaped (before st)); [reflexivity|].
  rewrite m_Char. destruct st as [pre [|c s] c0]; [reflexivity|].
  rewrite step1_cons. cbn [after before caps].
  destruct (c =? sep)%N; [|reflexivity].
  rewrite m_Capture, greedy_dot.
  - cbn [before after caps].
    unfold line_head, line_tail. now rewrite consumed_take_while.
  - intros st' Hst'. apply Hk. exact Hst'.
Qed.

Lemma at_eol_line_tail pre s c0 : at_eol (MState pre (line_tail s) c0) = true.
Proof.
  unfold at_eol, line_tail; cbn [after].
  pose proof (drop_while_head not_lt s) as H.
  destruct (drop_while not_lt s) as [|c t]; [reflexivity|].
  unfold not_lt in H. now destruct (is_lt c).
Qed.

Lemma LineEnd_inside st : at_eol st = false -> m LineEnd st accept = Ok None.
Proof. intros H. now rewrite m_LineEnd, H. Qed.

(** *** The entry pattern *)

Lemma entry_tail st :
  m entry_tail_re st accept
  = if escaped (before st) then Ok None
    else match after st with
         | c :: s =>
             if (c =? ch_colon)%N
             then Ok (Some (MState (rev (line_head s) ++ c :: before st) (line_tail s)
                                   (upd 2 (Some (line_head s)) (caps st))))
             else Ok None
         | [] => Ok None
         end.
Proof.
  unfold entry_tail_re.
  change (m _ st accept) with
    (m (NotAfter ch_bslash) st (fun s1 =>
       m (Char ch_colon) s1 (fun s2 =>
         m (Capture 2 (Star true Dot)) s2 (fun s3 => m LineEnd s3 accept)))).
  rewrite sep_tail by apply LineEnd_inside.
  destruct (escaped (before st)); [reflexivity|].
  destruct (after st) as [|c s]; [reflexivity|].
  destruct (c =? ch_colon)%N; [|reflexivity].
  now rewrite m_LineEnd, at_eol_line_tail.
Qed.

Lemma entry_scan pre s0 c0 :
  forall s kacc, s0 = kacc ++ s ->
    lazy_scan
      (fun st' =>
         m entry_tail_re
           (MState (before st') (after st')
              (upd 1 (Some (consumed (MState (ch_dash :: pre) s0 c0) st')) (caps st')))
           accept)
      (rev kacc ++ ch_dash :: pre) s c0
    = Ok match find_sep ch_colon (escaped (rev kacc ++ ch_dash :: pre)) s with
         | Some (k2, r) =>
             Some (MState (rev (line_head r) ++ ch_colon :: rev (kacc ++ k2) ++ ch_dash :: pre)
                          (line_tail r)
                          (upd 2 (Some (line_head r)) (upd 1 (Some (kacc ++ k2)) c0)))
         | None => None
         end.
Proof.
  induction s as [|c s IH]; intros kacc ->.
  - cbn [lazy_scan find_sep]. rewrite entry_tail. cbn [before after].
    now destruct (escaped _).
  - cbn [lazy_scan find_sep]. rewrite entry_tail. cbn [before after caps].
    rewrite consumed_app.
    assert (Hrec :
      (if not_lt c
       then lazy_scan
              (fun st' =>
                 m entry_tail_re
                   (MState (before st') (after st')
                      (upd 1 (Some (consumed (MState (ch_dash :: pre) (kacc ++ c :: s) c0) st'))
                         (caps st')))
                   accept)
              (c :: rev kacc ++ ch_dash :: pre) s c0
       else Ok None)
      = Ok (if is_lt c then None
            else match find_sep ch_colon (c =? ch_bslash)%N s with
                 | Some (a, b) =>
                     Some (MState (rev (line_head b) ++ ch_colon :: rev (kacc ++ c :: a) ++ ch_dash :: pre)
                                  (line_tail b)
                                  (upd 2 (Some (line_head b)) (upd 1 (Some (kacc ++ c :: a)) c0)))
                 | None => None
                 end)).
    { unfold not_lt. destruct (is_lt c); [reflexivity|]. cbn [negb].
      specialize (IH (kacc ++ [c])).
      rewrite rev_app_distr in IH. cbn [rev app] in IH.
      rewrite <- app_assoc in IH. cbn [app] in IH.
      rewrite IH by reflexivity. cbn [escaped].
      destruct (find_sep ch_colon (c =? ch_bslash)%N s) as [[a b]|]; [|reflexivity].
      now rewrite <- !app_assoc. }
    destruct (escaped (rev kacc ++ ch_dash :: pre)) eqn:Ee.
    + rewrite Hrec, andb_false_r.
      destruct (is_lt c); [reflexivity|].
      now destruct (find_sep ch_colon (c =? ch_bslash)%N s) as [[a b]|].
    + rewrite andb_true_r. destruct (c =? ch_colon)%N eqn:Ec.
      * apply N.eqb_eq in Ec; subst c. cbn [is_lt]. 
        replace (is_lt ch_colon) with false by reflexivity.
        now rewrite !app_nil_r.
      * rewrite Hrec. destruct (is_lt c); [reflexivity|].
        now destruct (find_sep ch_colon (c =? ch_bslash)%N s) as [[a b]|].
Qed.

Lemma entry_here pre suf :
  match_here entry_re pre suf
  = Ok (if bol pre
        then match entry_at suf with
             | Some (k, v, tail) =>
                 Some (MState (rev v ++ ch_colon :: rev k ++ ch_dash :: pre) tail
                              [None; Some k; Some v])
             | None => None
             end
        else None).
Proof.
  unfold match_here, entry_re.
  rewrite m_Seq, m_LineStart. cbn [before].
  destruct (bol pre); [|reflexivity].
  rewrite m_Seq, m_Char. unfold entry_at.
  destruct suf as [|c s]; [reflexivity|].
  rewrite step1_cons. cbn [before after caps].
  destruct (c =? ch_dash)%N eqn:Ec; [|reflexivity].
  apply N.eqb_eq in Ec; subst c.
  rewrite m_Seq, m_Capture, lazy_dot. cbn [before after caps].
  pose proof (@entry_scan pre s (repeat None (S (ngroups entry_re))) s [] eq_refl) as H.
  cbn [rev app escaped] in H.
  replace (ch_dash =? ch_bslash)%N with false in H by reflexivity.
  etransitivity; [exact H|].
  destruct (find_sep ch_colon false s) as [[k r]|]; reflexivity.
Qed.

(** *** The thumbnail pattern *)

Lemma thumb_tail st :
  m thumb_tail_re st accept
  = match (if escaped (before st) then Ok None
           else match after st with
                | c :: s =>
                    if (c =? ch_pipe)%N
                    then Ok (Some (MState (rev (line_head s) ++ c :: before st)
                                          (line_tail s)
                                          (upd 2 (Some (line_head s)) (caps st))))
                    else Ok None
                | [] => Ok None
                end)
    with
    | Ok (Some st') => Ok (Some st')
    | Ok None => if at_eol st then Ok (Some st) else Ok None
    | Err e => Err e
    end.
Proof.
  unfold thumb_tail_re.
  change (m _ st accept) with
    (m (NotAfter ch_bslash) st (fun s1 =>
       m (Char ch_pipe) s1 (fun s2 =>
         m (Capture 2 (Star true Dot)) s2 (fun st' =>
           if endIndex st' =? endIndex st then Ok None
           else m LineEnd st' accept)))
     <|> m LineEnd st accept).
  rewrite sep_tail.
  - rewrite m_LineEnd. unfold accept at 2.
    destruct (escaped (before st)); [reflexivity|].
    destruct (after st) as [|c s]; [reflexivity|].
    destruct (c =? ch_pipe)%N; [|reflexivity].
    replace (endIndex _ =? endIndex st) with false.
    + now rewrite m_LineEnd, at_eol_line_tail.
    + symmetry. apply Nat.eqb_neq. unfold endIndex; cbn [before].
      rewrite length_app; cbn [length]. lia.
  - intros st' Hst'. rewrite m_LineEnd, Hst'. now destruct (_ =? _).
Qed.

Lemma thumb_scan pre s0 c0 :
  forall s uacc, s0 = uacc ++ s ->
    lazy_scan
      (fun st' =>
         m thumb_tail_re
           (MState (before st') (after st')
              (upd 1 (Some (consumed (MState (ch_bang :: pre) s0 c0) st')) (caps st')))
           accept)
      (rev uacc ++ ch_bang :: pre) s c0
    = Ok (Some (let '(u, d, t) := thumb_split (escaped (rev uacc ++ ch_bang :: pre)) s in
                MState (rev (desc_text d) ++ rev (uacc ++ u) ++ ch_bang :: pre) t
                       (set_desc d (upd 1 (Some (uacc ++ u)) c0)))).
Proof.
  induction s as [|c s IH]; intros uacc ->.
  - cbn [lazy_scan thumb_split]. rewrite thumb_tail. cbn [before after caps at_eol].
    rewrite consumed_app, app_nil_r. now destruct (escaped _).
  - cbn [lazy_scan thumb_split]. rewrite thumb_tail.
    cbn [before after caps at_eol]. rewrite consumed_app.
    assert (Hrec :
      ((if at_eol (MState (rev uacc ++ ch_bang :: pre) (c :: s)
                    (upd 1 (Some uacc) c0))
       then Ok (Some (MState (rev uacc ++ ch_bang :: pre) (c :: s) (upd 1 (Some uacc) c0)))
       else Ok None)
      <|> (if not_lt c
           then lazy_scan
                  (fun st' =>
                     m thumb_tail_re
                       (MState (before st') (after st')
                          (upd 1 (Some (consumed (MState (ch_bang :: pre) (uacc ++ c :: s) c0) st'))
                             (caps st')))
                       accept)
                  (c :: rev uacc ++ ch_bang :: pre) s c0
           else Ok None))
      = Ok (Some (let '(u, d, t) :=
                    if is_lt c then ([], None, c :: s)
                    else let '(u, d, t) := thumb_split (c =? ch_bslash)%N s in (c :: u, d, t) in
                  MState (rev (desc_text d) ++ rev (uacc ++ u) ++ ch_bang :: pre) t
                         (set_desc d (upd 1 (Some (uacc ++ u)) c0))))).
    { unfold at_eol, not_lt; cbn [after]. destruct (is_lt c).
      - cbn [desc_text set_desc rev app]. now rewrite app_nil_r.
      - cbn [negb]. specialize (IH (uacc ++ [c])).
        rewrite rev_app_distr in IH. cbn [rev app] in IH.
        rewrite <- app_assoc in IH. cbn [app] in IH.
        rewrite IH by reflexivity. cbn [escaped].
        destruct (thumb_split (c =? ch_bslash)%N s) as [[u d] t].
        now rewrite <- !app_assoc. }
    destruct (escaped (rev uacc ++ ch_bang :: pre)) eqn:Ee.
    + rewrite andb_false_r. exact Hrec.
    + rewrite andb_true_r. destruct (c =? ch_pipe)%N eqn:Ec.
      * apply N.eqb_eq in Ec; subst c.
        cbn [desc_text set_desc rev app]. rewrite !app_nil_r.
        rewrite <- !app_assoc. reflexivity.
      * exact Hrec.
Qed.

Lemma thumb_here pre suf :
  match_here thumbnail_re pre suf
  = Ok (if bol pre
        then match suf with
             | c :: s => if (c =? ch_bang)%N then Some (thumb_state pre s) else None
             | [] => None
             end
        else None).
Proof.
  unfold match_here, thumbnail_re.
  rewrite m_Seq, m_LineStart. cbn [before].
  destruct (bol pre); [|reflexivity].
  rewrite m_Seq, m_Char.
  destruct suf as [|c s]; [reflexivity|].
  rewrite step1_cons. cbn [before after caps].
  destruct (c =? ch_bang)%N eqn:Ec; [|reflexivity].
  apply N.eqb_eq in Ec; subst c.
  rewrite m_Seq, m_Capture, lazy_dot. cbn [before after caps].
  pose proof (@thumb_scan pre s (repeat None (S (ngroups thumbnail_re))) s [] eq_refl) as H.
  cbn [rev app escaped] in H.
  replace (ch_bang =? ch_bslash)%N with false in H by reflexivity.
  etransitivity; [exact H|].
  unfold thumb_state.
  destruct (thumb_split false s) as [[u d] t]; reflexivity.
Qed.

(** *** The group pattern *)

Lemma m_region_body pre c s c0 k :
  m region_body (MState pre (c :: s) c0) k
  = if not_hash c then k (MState (c :: pre) s c0) else Ok None.
Proof.
  unfold region_body, not_hash. cbn [m]. rewrite !step1_cons.
  destruct (c =? ch_hash)%N eqn:E; cbn [negb].
  - apply N.eqb_eq in E; subst c. reflexivity.
  - destruct (k _) as [[x|]|e]; try reflexivity.
    now destruct (c =? ch_nl)%N.
Qed.

(** The greedy body of group 2 runs to the first [#] or to the end of the
    input, where the lookahead that follows accepts. *)
Lemma greedy_region_loop k c0 :
  forall s pre n, length s < n ->
    (exists x, k (MState (rev (take_while not_hash s) ++ pre) (drop_while not_hash s) c0)
               = Ok (Some x)) ->
    repeat_loop true (m region_body) n (MState pre s c0) k
    = k (MState (rev (take_while not_hash s) ++ pre) (drop_while not_hash s) c0).
Proof.
  induction s as [|c s IH]; intros pre n Hn Hk;
    (destruct n as [|n]; [simpl in Hn; lia|]).
  - reflexivity.
  - simpl in Hn. rewrite repeat_loop_S; cbv zeta.
    rewrite m_region_body. cbn [take_while drop_while] in *.
    destruct (not_hash c); [|reflexivity].
    cbn [rev] in *. rewrite <- app_assoc in *. cbn [app] in *.
    rewrite endIndex_moved, (IH (c :: pre) n) by (lia || assumption).
    destruct Hk as [x ->]. reflexivity.
Qed.

Lemma group_end pre s c0 :
  m group_end_re (MState pre (drop_while not_hash s) c0) accept
  = Ok (Some (MState pre (drop_while not_hash s) c0)).
Proof.
  pose proof (drop_while_head not_hash s) as H.
  unfold group_end_re. cbn [m].
  destruct (drop_while not_hash s) as [|c t]; [reflexivity|].
  rewrite step1_cons. unfold not_hash in H.
  destruct (c =? ch_hash)%N; [reflexivity | discriminate].
Qed.

Lemma group_here pre suf :
  match_here group_re pre suf
  = Ok (if bol pre
        then match group_at suf with
             | Some (n, region, tail) =>
                 Some (MState (rev region ++ ch_dash :: ch_nl :: rev n ++ ch_hash :: pre)
                              tail [None; Some n; Some region])
             | None => None
             end
        else None).
Proof.
  unfold match_here, group_re.
  rewrite m_Seq, m_LineStart. cbn [before].
  destruct (bol pre); [|reflexivity].
  rewrite m_Seq, m_Char. unfold group_at.
  destruct suf as [|c s]; [reflexivity|].
  rewrite step1_cons. cbn [before after caps].
  destruct (c =? ch_hash)%N eqn:Ec; [|reflexivity].
  apply N.eqb_eq in Ec; subst c.
  rewrite m_Seq, m_Capture, greedy_dot.
  2:{ intros st' Hst'. rewrite m_Seq, m_Char. cbn [before after caps].
      unfold at_eol in Hst'. destruct (after st') as [|c t]; [discriminate|].
      cbn [step1 after]. destruct (c =? ch_nl)%N eqn:E; [|reflexivity].
      apply N.eqb_eq in E; subst c. discriminate. }
  cbn [before after caps]. unfold line_head, line_tail.
  rewrite consumed_take_while. fold (line_head s) (line_tail s).
  rewrite m_Seq, m_Char.
  destruct (line_tail s) as [|a t]; [reflexivity|].
  rewrite step1_cons. destruct (a =? ch_nl)%N eqn:Ea; [|now destruct t].
  apply N.eqb_eq in Ea; subst a.
  rewrite m_Seq, m_Char.
  destruct t as [|b r]; [reflexivity|].
  rewrite step1_cons. destruct (b =? ch_dash)%N eqn:Eb; [|reflexivity].
  apply N.eqb_eq in Eb; subst b. cbn [andb].
  rewrite m_Seq, m_Capture, m_Star. fold region_body. cbn [after].
  rewrite greedy_region_loop by
    (try lia; cbn [before after caps]; rewrite consumed_take_while;
     fold group_end_re; rewrite group_end; eexists; reflexivity).
  cbn [before after caps]. rewrite consumed_take_while.
  fold group_end_re. rewrite group_end. reflexivity.
Qed.

(** *** The separator pattern *)

Lemma semi_here pre suf :
  match_here semi_re pre suf
  = Ok (if escaped pre then None
        else match suf with
             | c :: s => if (c =? ch_semi)%N then Some (MState (c :: pre) s [None]) else None
             | [] => None
             end).
Proof.
  unfold match_here, semi_re. rewrite m_Seq, m_NotAfter. cbn [before].
  destruct (escaped pre); [reflexivity|].
  rewrite m_Char. destruct suf as [|c s]; [reflexivity|].
  rewrite step1_cons. now destruct (c =? ch_semi)%N.
Qed.

(** ** The drivers, for a pattern whose matches are known *)

Section Driver.

Variable r : regex.

(** [here pre suf]: the text matched at this position, the input left after
    it, and the groups. *)
Variable here : str -> str -> option (str * str * list (option str)).

Hypothesis here_ok : forall pre suf,
  match_here r pre suf
  = Ok match here pre suf with
       | Some (a, t, cs) => Some (MState (rev a ++ pre) t (None :: cs))
       | None => None
       end.

Hypothesis here_fwd : forall pre suf a t cs,
  here pre suf = Some (a, t, cs) -> suf = a ++ t /\ a <> [].

Lemma exec_find pre suf :
  exec r pre suf
  = Ok match find_match here pre suf with
       | Some (p, t, arr) => Some (MState p t arr)
       | None => None
       end.
Proof.
  revert pre; induction suf as [|c s IH]; intros pre; cbn [exec find_match];
    rewrite here_ok; destruct (here pre _) as [[[a t] cs]|] eqn:E;
    try reflexivity; try apply IH.
  all: destruct (@here_fwd _ _ _ _ _ E) as [-> _];
    unfold finish; cbn [before after caps upd]; now rewrite consumed_app.
Qed.

Lemma find_match_shorter pre suf p t arr :
  find_match here pre suf = Some (p, t, arr) -> length t < length suf.
Proof.
  revert pre; induction suf as [|c s IH]; intros pre; cbn [find_match];
    destruct (here pre _) as [[[a t'] cs]|] eqn:E.
  - intros [= <- <- <-]. destruct (@here_fwd _ _ _ _ _ E) as [H Ha].
    destruct a; [congruence | discriminate].
  - discriminate.
  - intros [= <- <- <-]. destruct (@here_fwd _ _ _ _ _ E) as [H Ha].
    rewrite H, length_app. destruct a; [congruence | simpl; lia].
  - intros H. apply IH in H. simpl. lia.
Qed.

Lemma find_match_nonempty pre suf p t arr :
  find_match here pre suf = Some (p, t, arr) ->
  exists a cs, arr = Some a :: cs /\ a <> [].
Proof.
  revert pre; induction suf as [|c s IH]; intros pre; cbn [find_match];
    destruct (here pre _) as [[[a t'] cs]|] eqn:E; try discriminate;
    try (intros [= <- <- <-]; exists a, cs; split;
         [reflexivity | apply (@here_fwd _ _ _ _ _ E)]).
  apply IH.
Qed.

Lemma matchAll_from_spec n :
  forall pre suf l, length suf < n ->
    matches_from here pre suf l -> matchAll_from n r pre suf = Ok l.
Proof.
  induction n as [|n IH]; intros pre suf l Hn Hl; [lia|].
  cbn [matchAll_from]. rewrite exec_find.
  destruct Hl as [pre suf E | pre suf p t arr l E Hl]; rewrite E; [reflexivity|].
  destruct (@find_match_nonempty _ _ _ _ _ E) as (a & cs & -> & Ha).
  pose proof (@find_match_shorter _ _ _ _ _ E) as Hlen.
  cbn [caps nth before after].
  rewrite (IH p t l) by (lia || assumption).
  destruct a; [congruence | reflexivity].
Qed.

Lemma matches_from_total :
  forall suf pre, exists l, matches_from here pre suf l.
Proof.
  intros suf. remember (length suf) as n eqn:Hn.
  revert suf Hn. induction n as [n IH] using lt_wf_ind. intros suf -> pre.
  destruct (find_match here pre suf) as [[[p t] arr]|] eqn:E.
  - destruct (IH (length t) (@find_match_shorter _ _ _ _ _ E) t eq_refl p) as [l Hl].
    exists (arr :: l). now apply mf_next with p t.
  - exists []. now constructor.
Qed.

Lemma matches_from_fun pre suf l1 l2 :
  matches_from here pre suf l1 -> matches_from here pre suf l2 -> l1 = l2.
Proof.
  intros H1; revert l2; induction H1 as [pre suf E | pre suf p t arr l E _ IH];
    intros l2 H2; destruct H2 as [pre suf E2 | pre suf p2 t2 arr2 l2 E2 H2];
    try congruence.
  rewrite E in E2. injection E2 as <- <- <-. f_equal. now apply IH.
Qed.

Lemma matchAll_spec s l : matches_from here [] s l -> matchAll r s = Ok l.
Proof. intros H. apply matchAll_from_spec; [lia | exact H]. Qed.

(** A position where the pattern cannot match is skipped. *)
Lemma matches_from_skip pre c s l :
  here pre (c :: s) = None ->
  matches_from here (c :: pre) s l -> matches_from here pre (c :: s) l.
Proof.
  intros E H. inversion H as [p' s' E' | p' s' p t arr l' E' Hl]; subst.
  - apply mf_done. cbn [find_match]. now rewrite E.
  - apply mf_next with p t; [|exact Hl]. cbn [find_match]. now rewrite E.
Qed.

Lemma matches_from_hit pre suf a t cs l :
  here pre suf = Some (a, t, cs) ->
  matches_from here (rev a ++ pre) t l ->
  matches_from here pre suf ((Some a :: cs) :: l).
Proof.
  intros E H. apply mf_next with (rev a ++ pre) t; [|exact H].
  destruct suf; cbn [find_match]; now rewrite E.
Qed.

Lemma matches_from_end pre :
  here pre [] = None -> matches_from here pre [] [].
Proof. intros E. apply mf_done. cbn [find_match]. now rewrite E. Qed.

End Driver.

(** ** Lines *)

Lemma lines_head s : lines s = line_head s :: tl (lines s).
Proof.
  induction s as [|c s IH]; [reflexivity|].
  unfold line_head, not_lt in *. cbn [lines take_while].
  destruct (is_lt c); [reflexivity|]. cbn [negb].
  rewrite IH. reflexivity.
Qed.

Lemma lines_line_tail s : tl (lines (line_tail s)) = tl (lines s).
Proof.
  induction s as [|c s IH]; [reflexivity|].
  unfold line_tail, not_lt in *. cbn [lines drop_while].
  destruct (is_lt c) eqn:E; cbn [negb].
  - cbn [lines]. now rewrite E.
  - rewrite IH. now rewrite (lines_head s).
Qed.

Lemma line_tail_length s : length (line_tail s) <= length s.
Proof.
  unfold line_tail. induction s as [|c s IH]; simpl; [lia|].
  destruct (not_lt c); simpl; lia.
Qed.

Lemma bol_after_line a pre :
  a <> [] -> Forall (fun c => not_lt c = true) a -> bol (rev a ++ pre) = false.
Proof.
  intros Ha Hall. destruct a as [|c a] using rev_ind; [congruence|].
  rewrite rev_app_distr. cbn [rev app bol].
  apply Forall_app in Hall as [_ Hc]. inversion Hc as [|? ? H _]; subst.
  unfold not_lt in H. now destruct (is_lt c).
Qed.

Lemma line_head_not_lt s : Forall (fun c => not_lt c = true) (line_head s).
Proof. apply take_while_all. Qed.

(** ** A pattern that matches whole lines *)

Section Linewise.

Variable here : str -> str -> option (str * str * list (option str)).

(** The groups of the match of a line, when the line matches. *)
Variable on_line : str -> option (list (option str)).

Hypothesis here_bol : forall pre suf, bol pre = false -> here pre suf = None.

Hypothesis here_line : forall pre suf, bol pre = true ->
  here pre suf
  = match on_line (line_head suf) with
    | Some cs => Some (line_head suf, line_tail suf, cs)
    | None => None
    end.

Hypothesis on_line_nil : on_line [] = None.

Lemma linewise_aux n :
  forall s, length s < n -> forall pre,
    matches_from here pre s
      (flat_map (line_matches on_line) (if bol pre then lines s else tl (lines s))).
Proof.
  induction n as [|n IH]; intros s Hn pre; [lia|].
  destruct (bol pre) eqn:Hb.
  - (* at the start of a line *)
    pose proof (here_line pre s Hb) as Hh.
    rewrite (lines_head s). cbn [flat_map]. unfold line_matches at 1.
    destruct (on_line (line_head s)) as [cs|] eqn:Ef.
    + assert (Hne : line_head s <> []) by (intros E0; rewrite E0 in Ef; congruence).
      cbn [app]. apply (matches_from_hit _ _ _ _ _ _ _ Hh).
      assert (Hlt : length (line_tail s) < n).
      { pose proof (take_drop_while not_lt s) as Hs.
        fold (line_head s) (line_tail s) in Hs.
        apply (f_equal (@length char)) in Hs. rewrite length_app in Hs.
        destruct (line_head s); [congruence | simpl in Hs; lia]. }
      pose proof (IH (line_tail s) Hlt (rev (line_head s) ++ pre)) as H.
      rewrite (bol_after_line _ pre Hne (line_head_not_lt s)) in H.
      now rewrite lines_line_tail in H.
    + cbn [app]. destruct s as [|c s].
      * cbn [lines tl flat_map]. apply matches_from_end. exact Hh.
      * apply matches_from_skip; [exact Hh|].
        assert (Hlt : length s < n) by (simpl in Hn; lia).
        pose proof (IH s Hlt (c :: pre)) as H. cbn [bol] in H.
        cbn [lines]. destruct (is_lt c); [exact H|].
        rewrite (lines_head s). exact H.
  - (* inside a line *)
    destruct s as [|c s].
    + cbn [lines tl flat_map]. apply matches_from_end. now apply here_bol.
    + apply matches_from_skip; [now apply here_bol|].
      assert (Hlt : length s < n) by (simpl in Hn; lia).
      pose proof (IH s Hlt (c :: pre)) as H. cbn [bol] in H.
      cbn [lines]. destruct (is_lt c); [exact H|].
      rewrite (lines_head s). exact H.
Qed.

Lemma linewise s : matches_from here [] s (flat_map (line_matches on_line) (lines s)).
Proof. apply (linewise_aux (S (length s)) s (Nat.lt_succ_diag_r _) []). Qed.

End Linewise.

(** ** Splitting the value text *)

Lemma split_semi_nonempty esc s : split_semi esc s <> [].
Proof.
  revert esc; induction s as [|c s IH]; intros esc; cbn [split_semi]; [discriminate|].
  destruct (_ && _); [discriminate|].
  destruct (split_semi _ s); discriminate.
Qed.

Lemma split_loop_semi :
  forall suf n seg pre, length suf < n ->
    split_loop n semi_re seg pre suf
    = Ok match split_semi (escaped pre) suf with
         | l :: ls => (rev seg ++ l) :: ls
         | [] => [rev seg]
         end.
Proof.
  induction suf as [|c s IH]; intros n seg pre Hn;
    (destruct n as [|n]; [simpl in Hn; lia|]); cbn [split_loop split_semi].
  - now rewrite app_nil_r.
  - simpl in Hn. rewrite semi_here.
    assert (Hskip :
      split_loop n semi_re (c :: seg) (c :: pre) s
      = Ok match split_semi (c =? ch_bslash)%N s with
           | l :: ls => (rev seg ++ c :: l) :: ls
           | [] => [rev seg ++ [c]]
           end).
    { rewrite IH by lia. cbn [escaped rev].
      destruct (split_semi _ s); [reflexivity|]. now rewrite <- app_assoc. }
    destruct (escaped pre).
    + rewrite andb_false_r, Hskip.
      now destruct (split_semi _ s).
    + rewrite andb_true_r. destruct (c =? ch_semi)%N eqn:Ec.
      * unfold endIndex; cbn [before after length].
        replace (S (length pre) =? length pre - length seg) with false
          by (symmetry; apply Nat.eqb_neq; lia).
        rewrite IH by lia. cbn [bind escaped rev app].
        apply N.eqb_eq in Ec; subst c.
        replace (ch_semi =? ch_bslash)%N with false by reflexivity.
        rewrite app_nil_r.
        pose proof (split_semi_nonempty false s).
        now destruct (split_semi false s).
      * rewrite Hskip. now destruct (split_semi _ s).
Qed.

Lemma split_semi_ok v : split semi_re v = Ok (split_semi false v).
Proof.
  destruct v as [|c s]; [reflexivity|].
  unfold split. rewrite split_loop_semi by (simpl; lia).
  cbn [escaped rev app].
  pose proof (split_semi_nonempty false (c :: s)).
  now destruct (split_semi false (c :: s)).
Qed.

(** ** Facts about the scanners *)

Lemma line_head_idem s : line_head (line_head s) = line_head s.
Proof.
  unfold line_head. induction s as [|c s IH]; [reflexivity|].
  cbn [take_while]. destruct (not_lt c) eqn:E; [|reflexivity].
  cbn [take_while]. now rewrite E, IH.
Qed.

Lemma line_tail_head s : line_tail (line_head s) = [].
Proof.
  unfold line_head, line_tail. induction s as [|c s IH]; [reflexivity|].
  cbn [take_while]. destruct (not_lt c) eqn:E; [|reflexivity].
  cbn [drop_while]. now rewrite E.
Qed.

Lemma line_head_tail s : line_head s ++ line_tail s = s.
Proof. apply take_drop_while. Qed.

Lemma find_sep_split sep esc s k r :
  find_sep sep esc s = Some (k, r) ->
  s = k ++ sep :: r /\ Forall (fun c => not_lt c = true) k /\ is_lt sep = false.
Proof.
  revert esc k r; induction s as [|c s IH]; intros esc k r; cbn [find_sep];
    [discriminate|].
  destruct (is_lt c) eqn:El; [discriminate|].
  destruct ((c =? sep)%N && negb esc) eqn:E.
  - intros [= <- <-]. apply andb_prop in E as [E _].
    apply N.eqb_eq in E; subst c. repeat split; [constructor | exact El].
  - destruct (find_sep sep _ s) as [[a b]|] eqn:Er; [|discriminate].
    intros [= <- <-]. destruct (IH _ _ _ Er) as (-> & Hall & Hs).
    repeat split; [|exact Hs]. constructor; [|exact Hall].
    unfold not_lt. now rewrite El.
Qed.

Lemma find_sep_line sep esc s :
  find_sep sep esc (line_head s)
  = match find_sep sep esc s with
    | Some (k, r) => Some (k, line_head r)
    | None => None
    end.
Proof.
  revert esc; induction s as [|c s IH]; intros esc; [reflexivity|].
  unfold line_head, not_lt in *. cbn [take_while find_sep].
  destruct (is_lt c) eqn:El; [reflexivity|]. cbn [negb find_sep]. rewrite El.
  destruct ((c =? sep)%N && negb esc); [reflexivity|].
  rewrite IH. now destruct (find_sep sep _ s) as [[a b]|].
Qed.

Lemma find_sep_tail sep esc s k r :
  find_sep sep esc s = Some (k, r) -> line_tail s = line_tail r.
Proof.
  intros H. destruct (find_sep_split _ _ _ _ _ H) as (-> & Hk & Hs).
  unfold line_tail. rewrite drop_while_app by exact Hk.
  cbn [drop_while]. unfold not_lt at 1. now rewrite Hs.
Qed.

Lemma entry_at_line suf :
  entry_at suf
  = match entry_at (line_head suf) with
    | Some (k, v, _) => Some (k, v, line_tail suf)
    | None => None
    end.
Proof.
  destruct suf as [|c s]; [reflexivity|].
  unfold entry_at at 1. destruct (c =? ch_dash)%N eqn:Ec.
  - apply N.eqb_eq in Ec; subst c.
    change (line_head (ch_dash :: s)) with (ch_dash :: line_head s).
    change (line_tail (ch_dash :: s)) with (line_tail s).
    cbn [entry_at]. replace (ch_dash =? ch_dash)%N with true by reflexivity.
    rewrite find_sep_line.
    destruct (find_sep ch_colon false s) as [[k r]|] eqn:E; [|reflexivity].
    now rewrite line_head_idem, (find_sep_tail _ _ _ _ _ E).
  - unfold line_head. cbn [take_while]. destruct (not_lt c); [|reflexivity].
    cbn [entry_at]. now rewrite Ec.
Qed.

Lemma entry_at_text suf k v t :
  entry_at suf = Some (k, v, t) ->
  line_head suf = ch_dash :: k ++ ch_colon :: v /\ t = line_tail suf.
Proof.
  destruct suf as [|c s]; [discriminate|]. cbn [entry_at].
  destruct (c =? ch_dash)%N eqn:Ec; [|discriminate].
  apply N.eqb_eq in Ec; subst c.
  destruct (find_sep ch_colon false s) as [[k' r]|] eqn:E; [|discriminate].
  intros [= <- <- <-].
  change (line_head (ch_dash :: s)) with (ch_dash :: line_head s).
  change (line_tail (ch_dash :: s)) with (line_tail s).
  rewrite (find_sep_tail _ _ _ _ _ E). split; [|reflexivity].
  destruct (find_sep_split _ _ _ _ _ E) as (-> & Hk & Hs).
  unfold line_head. rewrite take_while_app by exact Hk.
  cbn [take_while]. unfold not_lt at 1. now rewrite Hs.
Qed.

Lemma thumb_split_text esc s :
  let '(u, d, t) := thumb_split esc s in
  line_head s = u ++ desc_text d /\ t = line_tail s.
Proof.
  revert esc; induction s as [|c s IH]; intros esc; cbn [thumb_split];
    [now split|].
  change (line_head (c :: s)) with (if not_lt c then c :: line_head s else []).
  change (line_tail (c :: s)) with (if not_lt c then line_tail s else c :: s).
  destruct ((c =? ch_pipe)%N && negb esc) eqn:E.
  - apply andb_prop in E as [E _]. apply N.eqb_eq in E; subst c.
    cbn [desc_text app]. replace (not_lt ch_pipe) with true by reflexivity.
    now split.
  - unfold not_lt. destruct (is_lt c); cbn [negb]; [now split|].
    specialize (IH (c =? ch_bslash)%N).
    destruct (thumb_split _ s) as [[u d] t]. destruct IH as [-> ->].
    now split.
Qed.

Lemma thumb_split_line esc s :
  thumb_split esc (line_head s)
  = let '(u, d, _) := thumb_split esc s in (u, d, []).
Proof.
  revert esc; induction s as [|c s IH]; intros esc; [reflexivity|].
  change (line_head (c :: s)) with (if not_lt c then c :: line_head s else []).
  cbn [thumb_split].
  destruct (not_lt c) eqn:El.
  - cbn [thumb_split]. unfold not_lt in El.
    destruct (is_lt c); [discriminate|].
    destruct ((c =? ch_pipe)%N && negb esc).
    + now rewrite line_head_idem, line_tail_head.
    + rewrite IH. now destruct (thumb_split _ s) as [[u d] t].
  - unfold not_lt in El. destruct (is_lt c) eqn:E; [|discriminate].
    destruct ((c =? ch_pipe)%N && negb esc) eqn:Ep; [|reflexivity].
    apply andb_prop in Ep as [Ep _]. apply N.eqb_eq in Ep; subst c. discriminate.
Qed.

(** ** The entries of a region *)

Lemma entry_here_ok pre suf :
  match_here entry_re pre suf
  = Ok match entry_here_f pre suf with
       | Some (a, t, cs) => Some (MState (rev a ++ pre) t (None :: cs))
       | None => None
       end.
Proof.
  rewrite entry_here. unfold entry_here_f. destruct (bol pre); [|reflexivity].
  destruct (entry_at suf) as [[[k v] t]|]; [|reflexivity].
  cbn [rev]. rewrite rev_app_distr. cbn [rev].
  now rewrite <- !app_assoc.
Qed.

Lemma entry_here_fwd pre suf a t cs :
  entry_here_f pre suf = Some (a, t, cs) -> suf = a ++ t /\ a <> [].
Proof.
  unfold entry_here_f. destruct (bol pre); [|discriminate].
  destruct (entry_at suf) as [[[k v] t']|] eqn:E; [|discriminate].
  intros [= <- <- <-]. destruct (entry_at_text _ _ _ _ E) as [H ->].
  rewrite <- H, line_head_tail. split; [reflexivity|].
  rewrite H. discriminate.
Qed.

Lemma entry_here_bol pre suf : bol pre = false -> entry_here_f pre suf = None.
Proof. unfold entry_here_f. now intros ->. Qed.

Lemma entry_here_line pre suf : bol pre = true ->
  entry_here_f pre suf
  = match entry_on_line (line_head suf) with
    | Some cs => Some (line_head suf, line_tail suf, cs)
    | None => None
    end.
Proof.
  unfold entry_here_f, entry_on_line. intros ->.
  rewrite (entry_at_line suf).
  destruct (entry_at (line_head suf)) as [[[k v] t]|] eqn:E; [|reflexivity].
  destruct (entry_at_text _ _ _ _ E) as [H _].
  rewrite line_head_idem in H. now rewrite <- H.
Qed.

Lemma entry_matches region :
  matchAll entry_re region
  = Ok (flat_map (line_matches entry_on_line) (lines region)).
Proof.
  apply (matchAll_spec entry_re entry_here_f entry_here_ok entry_here_fwd).
  apply linewise; [exact entry_here_bol | exact entry_here_line | reflexivity].
Qed.

Lemma parse_entries_lines region :
  parse_entries region = Ok (flat_map entry_of_line (lines region)).
Proof.
  unfold parse_entries. rewrite entry_matches. cbn [bind].
  apply mapM_flat_map. intros l.
  unfold line_matches, entry_on_line, entry_of_line.
  destruct (entry_at l) as [[[k v] t]|]; [|reflexivity].
  cbn [mapM]. unfold entry_of_match, get_string. cbn [nth bind].
  now rewrite split_semi_ok.
Qed.

(** ** The thumbnails of a source *)

Lemma thumb_here_ok pre suf :
  match_here thumbnail_re pre suf
  = Ok match thumb_here_f pre suf with
       | Some (a, t, cs) => Some (MState (rev a ++ pre) t (None :: cs))
       | None => None
       end.
Proof.
  rewrite thumb_here. unfold thumb_here_f, thumb_state.
  destruct (bol pre); [|reflexivity].
  destruct suf as [|c s]; [reflexivity|].
  destruct (c =? ch_bang)%N; [|reflexivity].
  destruct (thumb_split false s) as [[u d] t].
  cbn [rev]. rewrite rev_app_distr, <- !app_assoc. cbn [app].
  now destruct d.
Qed.

Lemma thumb_here_fwd pre suf a t cs :
  thumb_here_f pre suf = Some (a, t, cs) -> suf = a ++ t /\ a <> [].
Proof.
  unfold thumb_here_f. destruct (bol pre); [|discriminate].
  destruct suf as [|c s]; [discriminate|].
  destruct (c =? ch_bang)%N eqn:Ec; [|discriminate].
  apply N.eqb_eq in Ec; subst c.
  pose proof (thumb_split_text false s) as H.
  destruct (thumb_split false s) as [[u d] t']. destruct H as [H ->].
  intros [= <- <- <-]. split; [|discriminate].
  cbn [app]. now rewrite <- H, line_head_tail.
Qed.

Lemma thumb_here_bol pre suf : bol pre = false -> thumb_here_f pre suf = None.
Proof. unfold thumb_here_f. now intros ->. Qed.

Lemma thumb_here_line pre suf : bol pre = true ->
  thumb_here_f pre suf
  = match thumb_on_line (line_head suf) with
    | Some cs => Some (line_head suf, line_tail suf, cs)
    | None => None
    end.
Proof.
  unfold thumb_here_f, thumb_on_line. intros ->.
  destruct suf as [|c s]; [reflexivity|].
  change (line_head (c :: s)) with (if not_lt c then c :: line_head s else []).
  change (line_tail (c :: s)) with (if not_lt c then line_tail s else c :: s).
  destruct (c =? ch_bang)%N eqn:Ec.
  - apply N.eqb_eq in Ec; subst c.
    replace (not_lt ch_bang) with true by reflexivity.
    replace (ch_bang =? ch_bang)%N with true by reflexivity.
    rewrite thumb_split_line.
    pose proof (thumb_split_text false s) as H.
    destruct (thumb_split false s) as [[u d] t]. destruct H as [H ->].
    now rewrite H.
  - destruct (not_lt c); [now rewrite Ec | reflexivity].
Qed.

Lemma thumb_matches source :
  matchAll thumbnail_re source
  = Ok (flat_map (line_matches thumb_on_line) (lines source)).
Proof.
  apply (matchAll_spec thumbnail_re thumb_here_f thumb_here_ok thumb_here_fwd).
  apply linewise; [exact thumb_here_bol | exact thumb_here_line | reflexivity].
Qed.

Lemma parse_thumbnails_lines getImageLink source :
  parse_thumbnails getImageLink source
  = Ok (flat_map (thumbnail_of_line getImageLink) (lines source)).
Proof.
  unfold parse_thumbnails. rewrite thumb_matches. cbn [bind].
  apply mapM_flat_map. intros l.
  unfold line_matches, thumb_on_line, thumbnail_of_line.
  destruct l as [|c s]; [reflexivity|].
  destruct (c =? ch_bang)%N; [|reflexivity].
  now destruct (thumb_split false s) as [[u d] t].
Qed.

(** ** The groups of a source *)

Lemma group_here_ok pre suf :
  match_here group_re pre suf
  = Ok match group_here_f pre suf with
       | Some (a, t, cs) => Some (MState (rev a ++ pre) t (None :: cs))
       | None => None
       end.
Proof.
  rewrite group_here. unfold group_here_f. destruct (bol pre); [|reflexivity].
  destruct (group_at suf) as [[[n region] t]|]; [|reflexivity].
  cbn [rev]. rewrite rev_app_distr. cbn [rev].
  now rewrite <- !app_assoc.
Qed.

Lemma group_at_text suf n region t :
  group_at suf = Some (n, region, t) ->
  suf = ch_hash :: n ++ ch_nl :: ch_dash :: region ++ t
  /\ Forall (fun c => not_lt c = true) n
  /\ Forall (fun c => not_hash c = true) region
  /\ match t with [] => True | c :: _ => c = ch_hash end.
Proof.
  destruct suf as [|c s]; [discriminate|]. cbn [group_at].
  destruct (c =? ch_hash)%N eqn:Ec; [|discriminate].
  apply N.eqb_eq in Ec; subst c.
  destruct (line_tail s) as [|a [|b r]] eqn:Et; try discriminate.
  destruct (a =? ch_nl)%N eqn:Ea; [|discriminate].
  destruct (b =? ch_dash)%N eqn:Eb; [|discriminate].
  apply N.eqb_eq in Ea, Eb; subst a b. cbn [andb].
  intros [= <- <- <-]. repeat split.
  - rewrite take_drop_while, <- Et. now rewrite line_head_tail.
  - apply line_head_not_lt.
  - apply take_while_all.
  - pose proof (drop_while_head not_hash r) as H.
    destruct (drop_while not_hash r) as [|c t]; [exact I|].
    unfold not_hash in H. destruct (c =? ch_hash)%N eqn:E; [|discriminate].
    now apply N.eqb_eq in E.
Qed.

Lemma group_here_fwd pre suf a t cs :
  group_here_f pre suf = Some (a, t, cs) -> suf = a ++ t /\ a <> [].
Proof.
  unfold group_here_f. destruct (bol pre); [|discriminate].
  destruct (group_at suf) as [[[n region] t']|] eqn:E; [|discriminate].
  intros [= <- <- <-]. destruct (group_at_text _ _ _ _ E) as (-> & _).
  split; [|discriminate]. cbn [app]. rewrite <- !app_assoc. reflexivity.
Qed.

Lemma group_of_match_ok a n region :
  group_of_match [a; Some n; Some region] = Ok (group_of n region).
Proof.
  unfold group_of_match, get_string. cbn [nth bind].
  now rewrite parse_entries_lines.
Qed.

Lemma bol_after_ok region n pre :
  bol (rev (ch_hash :: n ++ ch_nl :: ch_dash :: region) ++ pre) = bol_after region.
Proof.
  unfold bol_after. cbn [rev]. rewrite rev_app_distr. cbn [rev].
  rewrite <- !app_assoc. cbn [app].
  now destruct (rev region).
Qed.

Lemma groups_from_matches b suf gs :
  groups_from b suf gs ->
  forall pre, bol pre = b ->
    exists l, matches_from group_here_f pre suf l
              /\ mapM group_of_match l = Ok gs.
Proof.
  induction 1 as [b | b c s gs Hc _ IH | suf n region t gs E _ IH];
    intros pre Hpre.
  - exists []. split; [|reflexivity]. apply matches_from_end.
    unfold group_here_f. now destruct (bol pre).
  - destruct (IH (c :: pre) eq_refl) as (l & Hl & Hm).
    exists l. split; [|exact Hm]. apply matches_from_skip; [|exact Hl].
    unfold group_here_f. rewrite Hpre.
    destruct Hc as [-> | ->]; [reflexivity | now destruct b].
  - destruct (IH (rev (ch_hash :: n ++ ch_nl :: ch_dash :: region) ++ pre)
                 (bol_after_ok _ _ _)) as (l & Hl & Hm).
    exists ((Some (ch_hash :: n ++ ch_nl :: ch_dash :: region)
             :: [Some n; Some region]) :: l).
    split.
    + apply (matches_from_hit group_here_f pre suf _ t _ l); [|exact Hl].
      unfold group_here_f. now rewrite Hpre, E.
    + cbn [mapM]. now rewrite group_of_match_ok, Hm.
Qed.

Lemma groups_from_total : forall suf b, exists gs, groups_from b suf gs.
Proof.
  intros suf. remember (length suf) as k eqn:Hk.
  revert suf Hk. induction k as [k IH] using lt_wf_ind. intros suf -> b.
  destruct suf as [|c s]; [exists []; constructor|].
  destruct b.
  - destruct (group_at (c :: s)) as [[[n region] t]|] eqn:E.
    + destruct (group_at_text _ _ _ _ E) as (Hs & _).
      assert (Hlen : length t < length (c :: s)).
      { rewrite Hs. cbn [length]. rewrite !length_app. cbn [length].
        rewrite length_app. lia. }
      destruct (IH _ Hlen t eq_refl (bol_after region)) as [gs Hgs].
      exists (group_of n region :: gs). now apply gf_hit with t.
    + destruct (IH (length s) (Nat.lt_succ_diag_r _) s eq_refl (is_lt c)) as [gs Hgs].
      exists gs. apply gf_skip; [now right | exact Hgs].
  - destruct (IH (length s) (Nat.lt_succ_diag_r _) s eq_refl (is_lt c)) as [gs Hgs].
    exists gs. apply gf_skip; [now left | exact Hgs].
Qed.

Lemma groups_from_fun b suf gs1 gs2 :
  groups_from b suf gs1 -> groups_from b suf gs2 -> gs1 = gs2.
Proof.
  intros H1; revert gs2.
  induction H1 as [b | b c s gs Hc _ IH | suf n region t gs E _ IH];
    intros gs2 H2; inversion H2 as [| ? ? ? ? Hc2 H2' | ? ? ? ? ? E2 H2']; subst.
  all: try reflexivity; try discriminate.
  all: try (destruct Hc as [Hc | Hc]; congruence).
  all: try (destruct Hc2 as [Hc2 | Hc2]; congruence).
  - now apply IH.
  - rewrite E in E2. injection E2 as <- <- <-. f_equal. now apply IH.
Qed.

Lemma parse_groups_spec source gs :
  groups_from true source gs -> parse_groups source = Ok gs.
Proof.
  intros H. destruct (groups_from_matches _ _ _ H [] eq_refl) as (l & Hl & Hm).
  unfold parse_groups.
  rewrite (matchAll_spec group_re group_here_f group_here_ok group_here_fwd _ _ Hl).
  exact Hm.
Qed.

Lemma formatTable_spec getImageLink source gs :
  groups_from true source gs ->
  formatTable getImageLink source
  = Ok {| thumbnails := flat_map (thumbnail_of_line getImageLink) (lines source);
          groups := gs |}.
Proof.
  intros H. unfold formatTable.
  now rewrite parse_thumbnails_lines, (parse_groups_spec _ _ H).
Qed.

(** ** Groups in context *)

Lemma forallb_Forall (p : char -> bool) s :
  forallb p s = true -> Forall (fun c => p c = true) s.
Proof. intros H. apply Forall_forall. now apply forallb_forall. Qed.

Lemma take_while_until p a x :
  Forall (fun c => p c = true) a ->
  match x with [] => True | c :: _ => p c = false end ->
  take_while p (a ++ x) = a /\ drop_while p (a ++ x) = x.
Proof.
  intros Ha Hx. rewrite take_while_app, drop_while_app by exact Ha.
  rewrite take_while_stop, drop_while_stop by exact Hx.
  now rewrite app_nil_r.
Qed.

Lemma hash_or_end_stop x :
  hash_or_end x = true ->
  match x with [] => True | c :: _ => not_hash c = false end.
Proof.
  destruct x as [|c x]; [easy|]. cbn [hash_or_end]. unfold not_hash.
  now intros ->.
Qed.

Lemma group_at_intro n region x :
  Forall (fun c => not_lt c = true) n ->
  Forall (fun c => not_hash c = true) region ->
  hash_or_end x = true ->
  group_at (ch_hash :: n ++ ch_nl :: ch_dash :: region ++ x) = Some (n, region, x).
Proof.
  intros Hn Hr Hx. cbn [group_at].
  replace (ch_hash =? ch_hash)%N with true by reflexivity.
  unfold line_head, line_tail.
  destruct (take_while_until not_lt n (ch_nl :: ch_dash :: region ++ x) Hn eq_refl)
    as [-> ->].
  replace ((ch_nl =? ch_nl)%N && (ch_dash =? ch_dash)%N) with true by reflexivity.
  destruct (take_while_until not_hash region x Hr (hash_or_end_stop x Hx)) as [-> ->].
  reflexivity.
Qed.

Lemma bol_end_app b a x : bol_end b (a ++ x) = bol_end (bol_end b a) x.
Proof. revert b; induction a as [|c a IH]; intros b; [reflexivity | apply IH]. Qed.

Lemma in_header_app h b a x :
  in_header h b (a ++ x) = in_header (in_header h b a) (bol_end b a) x.
Proof.
  revert h b; induction a as [|c a IH]; intros h b; [reflexivity|].
  cbn [app in_header bol_end]. destruct (is_lt c); apply IH.
Qed.

Lemma in_header_mono b a :
  in_header true b a = false -> in_header false b a = false.
Proof.
  revert b; induction a as [|c a IH]; intros b; cbn [in_header]; [discriminate|].
  destruct (is_lt c); [easy|]. destruct b; [easy | apply IH].
Qed.

Lemma in_header_bol h b a :
  bol_end b a = true -> a <> [] -> in_header h b a = false.
Proof.
  revert h b; induction a as [|c a IH]; intros h b Hb Ha; [congruence|].
  cbn [in_header bol_end] in *. destruct a as [|c' a].
  - cbn [bol_end] in Hb. now rewrite Hb.
  - destruct (is_lt c); apply IH; (exact Hb || discriminate).
Qed.

Lemma bol_end_snoc b a c : bol_end b (a ++ [c]) = is_lt c.
Proof. now rewrite bol_end_app. Qed.

Lemma bol_end_group b n region :
  bol_end b (ch_hash :: n ++ ch_nl :: ch_dash :: region) = bol_after region.
Proof.
  unfold bol_after.
  change (ch_hash :: n ++ ch_nl :: ch_dash :: region)
    with ((ch_hash :: n) ++ [ch_nl] ++ [ch_dash] ++ region).
  rewrite !bol_end_app. cbn [bol_end app].
  destruct region as [|c r] using rev_ind; [reflexivity|].
  rewrite bol_end_snoc, rev_app_distr. reflexivity.
Qed.

(** In a line that starts with [#] and is not the last line of [s], what the
    group pattern finds does not depend on what is put after [s], as long as
    that starts with [#] or is empty. *)
Lemma group_at_app s x :
  in_header true false s = false ->
  hash_or_end x = true ->
  group_at (ch_hash :: s ++ x)
  = match group_at (ch_hash :: s) with
    | Some (n, region, t) => Some (n, region, t ++ x)
    | None => None
    end.
Proof.
  intros Hs Hx.
  assert (Hsplit : exists s1 c s2,
             s = s1 ++ c :: s2 /\ Forall (fun c => not_lt c = true) s1 /\ is_lt c = true).
  { clear Hx. induction s as [|c s IH]; [discriminate|].
    cbn [in_header] in Hs. destruct (is_lt c) eqn:Ec.
    - exists [], c, s. repeat split; [constructor | exact Ec].
    - destruct (IH Hs) as (s1 & c' & s2 & -> & H1 & H2).
      exists (c :: s1), c', s2. repeat split; [|exact H2].
      constructor; [|exact H1]. unfold not_lt. now rewrite Ec. }
  destruct Hsplit as (s1 & c & s2 & -> & H1 & Hc).
  assert (Hstop : forall y, match c :: y with [] => True | c0 :: _ => not_lt c0 = false end)
    by (intros y; unfold not_lt; now rewrite Hc).
  cbn [group_at]. replace (ch_hash =? ch_hash)%N with true by reflexivity.
  rewrite <- app_assoc. cbn [app]. unfold line_head, line_tail.
  destruct (take_while_until not_lt s1 (c :: s2 ++ x) H1 (Hstop (s2 ++ x))) as [-> ->].
  destruct (take_while_until not_lt s1 (c :: s2) H1 (Hstop s2)) as [-> ->].
  destruct (c =? ch_nl)%N; cbn [andb].
  2:{ destruct s2; [|reflexivity]. now destruct x. }
  destruct s2 as [|d s2].
  - destruct x as [|y x]; [reflexivity|]. cbn [app hash_or_end] in *.
    apply N.eqb_eq in Hx; subst y. reflexivity.
  - cbn [app]. destruct (d =? ch_dash)%N; [|reflexivity].
    pose proof (drop_while_head not_hash s2) as Hd.
    pose proof (take_drop_while not_hash s2) as Htd.
    pose proof (take_while_all not_hash s2) as Hall.
    destruct (drop_while not_hash s2) as [|e t] eqn:Ed.
    + rewrite app_nil_r in Htd. rewrite Htd in Hall.
      destruct (take_while_until not_hash s2 x Hall (hash_or_end_stop x Hx)) as [-> ->].
      now rewrite Htd.
    + rewrite <- Htd at 1 2. rewrite <- app_assoc.
      destruct (take_while_until not_hash (take_while not_hash s2) ((e :: t) ++ x)
                  Hall Hd) as [-> ->].
      reflexivity.
Qed.

Lemma group_text_assoc n region t x :
  (ch_hash :: n ++ ch_nl :: ch_dash :: region ++ t) ++ x
  = ch_hash :: n ++ ch_nl :: ch_dash :: region ++ t ++ x.
Proof.
  cbn [app]. rewrite <- app_assoc. cbn [app]. now rewrite <- app_assoc.
Qed.

Lemma group_text_split n region t :
  ch_hash :: n ++ ch_nl :: ch_dash :: region ++ t
  = (ch_hash :: n ++ ch_nl :: ch_dash :: region) ++ t.
Proof.
  cbn [app]. rewrite <- app_assoc. reflexivity.
Qed.

(** The groups of a text followed by a text that starts with [#]: those of
    the first, then those of the second, when the first does not end inside
    a header line. *)
Lemma groups_from_app b a gs1 :
  groups_from b a gs1 ->
  forall x gs2,
    in_header false b a = false ->
    hash_or_end x = true ->
    groups_from (bol_end b a) x gs2 ->
    groups_from b (a ++ x) (gs1 ++ gs2).
Proof.
  induction 1 as [b | b c s gs Hc _ IH | suf n region t gs E _ IH];
    intros x gs2 Hin Hx H2.
  - exact H2.
  - cbn [app]. apply gf_skip.
    + destruct b; [|now left]. right.
      destruct Hc as [Hc | Hc]; [discriminate|].
      destruct (c =? ch_hash)%N eqn:Ec.
      * apply N.eqb_eq in Ec; subst c.
        cbn [in_header] in Hin.
        replace (is_lt ch_hash) with false in Hin by reflexivity.
        replace (ch_hash =? ch_hash)%N with true in Hin by reflexivity.
        rewrite (group_at_app s x Hin Hx). now rewrite Hc.
      * cbn [group_at]. now rewrite Ec.
    + apply IH; [|exact Hx|exact H2].
      cbn [in_header] in Hin. destruct (is_lt c); [exact Hin|].
      destruct b; [|exact Hin].
      destruct (c =? ch_hash)%N; [now apply in_header_mono | exact Hin].
  - destruct (group_at_text _ _ _ _ E) as (-> & Hn & Hr & Ht).
    rewrite group_text_assoc. cbn [app].
    rewrite group_text_split, in_header_app, bol_end_group in Hin.
    rewrite group_text_split, bol_end_app, bol_end_group in H2.
    apply gf_hit with (t ++ x).
    + apply group_at_intro; [exact Hn | exact Hr |].
      destruct t as [|c t]; [exact Hx|]. cbn [app hash_or_end].
      subst c. reflexivity.
    + apply IH; [|exact Hx|exact H2].
      destruct (in_header false true _); [now apply in_header_mono | exact Hin].
Qed.

(** ** Lines of a text written line by line *)

Lemma lines_nonempty s : lines s <> [].
Proof. rewrite lines_head. discriminate. Qed.

Lemma lines_line l : Forall (fun c => not_lt c = true) l -> lines l = [l].
Proof.
  induction 1 as [|c l Hc _ IH]; [reflexivity|].
  cbn [lines]. unfold not_lt in Hc. destruct (is_lt c); [discriminate|].
  now rewrite IH.
Qed.

Lemma lines_app_lt a c b :
  is_lt c = true -> lines (a ++ c :: b) = lines a ++ lines b.
Proof.
  intros Hc. induction a as [|x a IH]; cbn [app lines].
  - now rewrite Hc.
  - rewrite IH. destruct (is_lt x); [reflexivity|].
    pose proof (lines_nonempty a). now destruct (lines a).
Qed.

Lemma lines_unlines ls :
  ls <> [] -> forallb line_ok ls = true -> lines (unlines ls) = ls.
Proof.
  induction ls as [|l ls IH]; [congruence|]. intros _ H.
  cbn [forallb] in H. apply andb_prop in H as [Hl Hls].
  apply forallb_Forall in Hl.
  destruct ls as [|l' ls]; [now apply lines_line|].
  change (unlines (l :: l' :: ls)) with (l ++ ch_nl :: unlines (l' :: ls)).
  rewrite lines_app_lt by reflexivity.
  rewrite lines_line by exact Hl. rewrite IH by (discriminate || exact Hls).
  reflexivity.
Qed.

Lemma flat_map_lines_unlines {B} (f : str -> list B) ls :
  f [] = [] -> forallb line_ok ls = true ->
  flat_map f (lines (unlines ls)) = flat_map f ls.
Proof.
  intros Hf H. destruct ls as [|l ls].
  - cbn [unlines lines flat_map]. now rewrite Hf.
  - rewrite lines_unlines by (discriminate || exact H). reflexivity.
Qed.

(** ** The statements about the parser *)

Local Open Scope string_scope.

(** C8 - Parsing is total and deterministic: for every source, and whatever
    the link resolver is, [formatTable] returns a document (it neither throws
    nor, in the model, runs out of fuel), and that document is the only result
    of parsing this source. *)
Theorem formatTable_total_deterministic (getImageLink : str -> str) (source : str) :
  exists d, formatTable getImageLink source = Ok d
            /\ forall d', formatTable getImageLink source = Ok d' -> d' = d.
Proof.
  destruct (groups_from_total source true) as [gs H].
  eexists. split; [apply (formatTable_spec _ _ _ H)|].
  intros d' H'. rewrite (formatTable_spec _ _ _ H) in H'. congruence.
Qed.

(** C10 - Thumbnails do not depend on the position of their line: the
    thumbnails of a document are those of the lines of the source, line by
    line and in the order of the source; a line that begins with [!] gives
    exactly one thumbnail, wherever it stands (the groups are found in the
    same, whole source); and in the entries of a region a line that begins
    with [!] gives no entry. *)
Theorem thumbnails_position_independent (getImageLink : str -> str) (source : str) :
  (exists gs,
     formatTable getImageLink source
     = Ok {| thumbnails := flat_map (thumbnail_of_line getImageLink) (lines source);
             groups := gs |})
  /\ (forall s, length (thumbnail_of_line getImageLink (ch_bang :: s)) = 1)
  /\ (forall region,
        parse_entries region = Ok (flat_map entry_of_line (lines region)))
  /\ (forall s, entry_of_line (ch_bang :: s) = []).
Proof.
  repeat split.
  - destruct (groups_from_total source true) as [gs H].
    exists gs. apply (formatTable_spec _ _ _ H).
  - intros s. cbn [thumbnail_of_line].
    replace (ch_bang =? ch_bang)%N with true by reflexivity.
    now destruct (thumb_split false s) as [[u d] t].
  - apply parse_entries_lines.
Qed.

Example thumbnail_inside_group :
  formatTable no_links (src ["#G"; "-a:1"; "!pic.png|cap"; "-b:2"])
  = Ok {| thumbnails := [{| url := lit "pic.png"; description := Some (lit "cap") |}];
          groups := [{| name := lit "G";
                        entries := [{| key := lit "b"; value := VString (lit "2") |}] |}] |}.
Proof. vm_compute. reflexivity. Qed.

Example value_list_example :
  parse_entries (src ["-Tags:Red;Blue;Green"; "-Tags:Red\;White;Blue"; "-One:x"])
  = Ok [{| key := lit "Tags"; value := VList [lit "Red"; lit "Blue"; lit "Green"] |};
        {| key := lit "Tags"; value := VList [lit "Red;White"; lit "Blue"] |};
        {| key := lit "One"; value := VString (lit "x") |}].
Proof. vm_compute. reflexivity. Qed.

(** The example of the data model: the [-] that follows the line feed of the
    header is read by the group pattern and is not part of the region, so the
    first line after a header reaches the entry pattern without it. *)
Example stats_group :
  formatTable no_links (src ["#Stats"; "-HP:10"; "-MP:20"])
  = Ok {| thumbnails := [];
          groups := [{| name := lit "Stats";
                        entries := [{| key := lit "MP"; value := VString (lit "20") |}] |}] |}.
Proof. vm_compute. reflexivity. Qed.

Example link_value_kept :
  formatTable no_links (src ["!https://x/y.png"; "#Who"; "-"; "-Owner:[[John Doe|Johnny]]"])
  = Ok {| thumbnails := [{| url := lit "https://x/y.png"; description := None |}];
          groups := [{| name := lit "Who";
                        entries := [{| key := lit "Owner";
                                       value := VString (lit "[[John Doe|Johnny]]") |}] |}] |}.
Proof. vm_compute. reflexivity. Qed.

(** *** Escapes that stay *)

(** C2 - In the thumbnail line [!a\|b|desc] the first [|] that no backslash
    precedes is the separator, so the description is [desc]; but the text
    handed to the link resolver as the URL is [a\|b]: the backslash of the
    escaped [|] is kept, where the statement expects [a|b]. *)
Theorem thumbnail_escaped_pipe_keeps_backslash (getImageLink : str -> str) :
  formatTable getImageLink (src ["!a\|b|desc"])
  = Ok {| thumbnails := [{| url := getImageLink (lit "a\|b");
                            description := Some (lit "desc") |}];
          groups := [] |}.
Proof. vm_compute. reflexivity. Qed.

(** C5 - Only the first escaped delimiter of a key, and of each piece of a
    value, is decoded: in the line [-a\:b\:c:1\;2\;3] the key becomes
    [a:b\:c] and the value [1;2\;3], where the statement expects [a:b:c] and
    [1;2;3]. *)
Theorem only_first_escape_decoded (getImageLink : str -> str) :
  formatTable getImageLink (src ["#G"; "-x"; "-a\:b\:c:1\;2\;3"])
  = Ok {| thumbnails := [];
          groups := [{| name := lit "G";
                        entries := [{| key := lit "a:b\:c";
                                       value := VString (lit "1;2\;3") |}] |}] |}.
Proof. vm_compute. reflexivity. Qed.

(** *** The first line after a header, and [#] inside a region *)

(** C4 - A [#] in the middle of a line ends the region of a group.  In the
    source [#G], [-x:1], [-a:b #c], [-d:e] group 2 of the match of the group
    pattern stops before the [#] of the third line, so the value of [a] is
    cut to [b ] and the line [-d:e], which stands before any header line,
    gives no entry, where the statement has both lines whole in the region;
    a backslash before the [#] changes nothing. *)
Theorem hash_inside_line_cuts_region (getImageLink : str -> str) :
  matchAll group_re (src ["#G"; "-x:1"; "-a:b #c"; "-d:e"])
  = Ok [[Some (src ["#G"; "-x:1"; "-a:b "]); Some (lit "G");
         Some (src ["x:1"; "-a:b "])]]
  /\ formatTable getImageLink (src ["#G"; "-x:1"; "-a:b #c"; "-d:e"])
     = Ok {| thumbnails := [];
             groups := [{| name := lit "G";
                           entries := [{| key := lit "a";
                                          value := VString (lit "b ") |}] |}] |}
  /\ formatTable getImageLink (src ["#G"; "-x:1"; "-a:b \#c"; "-d:e"])
     = Ok {| thumbnails := [];
             groups := [{| name := lit "G";
                           entries := [{| key := lit "a";
                                          value := VString (lit "b \") |}] |}] |}.
Proof. repeat split; vm_compute; reflexivity. Qed.

(** C6 - The entry line that directly follows a header is lost: its [-] is
    read by the group pattern, so the line reaches the entry pattern without
    it and matches nothing.  The line [-Time\::Noon] alone after its header
    gives no entry, where the statement expects the key [Time:] and the
    value [Noon]; the same line in second place gives that entry; and of the
    two lines [-HP:10], [-MP:20] after [#Stats] only the second gives one. *)
Theorem entry_after_header_lost (getImageLink : str -> str) :
  formatTable getImageLink (src ["#G"; "-Time\::Noon"])
  = Ok {| thumbnails := [];
          groups := [{| name := lit "G"; entries := [] |}] |}
  /\ formatTable getImageLink (src ["#G"; "-Time\::Noon"; "-Time\::Noon"])
     = Ok {| thumbnails := [];
             groups := [{| name := lit "G";
                           entries := [{| key := lit "Time:";
                                          value := VString (lit "Noon") |}] |}] |}
  /\ formatTable getImageLink (src ["#Stats"; "-HP:10"; "-MP:20"])
     = Ok {| thumbnails := [];
             groups := [{| name := lit "Stats";
                           entries := [{| key := lit "MP";
                                          value := VString (lit "20") |}] |}] |}.
Proof. repeat split; vm_compute; reflexivity. Qed.

(** C9 - A line that starts with [-] and holds no [:] is not always skipped
    without effect on the other entries.  When it holds a [#], the region
    ends there: with the line [-no#colon] the later entry [b] is lost, where
    without the line both entries are produced.  And as the line that
    directly follows the header it decides whether the next line gives an
    entry: [-a:1] gives one after [-nocolon] and none without it. *)
Theorem colonless_line_affects_other_entries (getImageLink : str -> str) :
  formatTable getImageLink (src ["#G"; "-"; "-a:1"; "-no#colon"; "-b:2"])
  = Ok {| thumbnails := [];
          groups := [{| name := lit "G";
                        entries := [{| key := lit "a"; value := VString (lit "1") |}] |}] |}
  /\ formatTable getImageLink (src ["#G"; "-"; "-a:1"; "-b:2"])
     = Ok {| thumbnails := [];
             groups := [{| name := lit "G";
                           entries := [{| key := lit "a"; value := VString (lit "1") |};
                                       {| key := lit "b"; value := VString (lit "2") |}] |}] |}
  /\ formatTable getImageLink (src ["#G"; "-nocolon"; "-a:1"])
     = Ok {| thumbnails := [];
             groups := [{| name := lit "G";
                           entries := [{| key := lit "a"; value := VString (lit "1") |}] |}] |}
  /\ formatTable getImageLink (src ["#G"; "-a:1"])
     = Ok {| thumbnails := [];
             groups := [{| name := lit "G"; entries := [] |}] |}.
Proof. repeat split; vm_compute; reflexivity. Qed.

(** *** Sources on which the statements C1 and C3 fail *)

(** Against C1: a source that is the single header [#EmptySection] has no
    group at all. *)
Lemma empty_section_gives_no_group :
  ~ exists d g,
      formatTable no_links (src ["#EmptySection"]) = Ok d
      /\ In g (groups d)
      /\ name g = lit "EmptySection" /\ entries g = [].
Proof.
  intros (d & g & H & Hin & _). vm_compute in H.
  injection H as <-. destruct Hin.
Qed.

(** Against C3: when the first line after the header does not start with
    [-], the group is not produced, and neither is the entry of the line
    after it. *)
Lemma first_line_without_dash_drops_group :
  ~ exists d g,
      formatTable no_links (src ["#Stats"; "note"; "-HP:10"]) = Ok d
      /\ In g (groups d)
      /\ name g = lit "Stats".
Proof.
  intros (d & g & H & Hin & _). vm_compute in H.
  injection H as <-. destruct Hin.
Qed.

(** *** Where a group comes from *)

Lemma starts_with_app pat rest : starts_with pat (pat ++ rest) = true.
Proof.
  induction pat as [|c pat IH]; [now destruct rest|].
  cbn [app starts_with]. now rewrite N.eqb_refl, IH.
Qed.

Lemma occurs_intro pat a rest : occurs pat (a ++ pat ++ rest) = true.
Proof.
  induction a as [|c a IH].
  - cbn [app]. destruct (pat ++ rest) eqn:E; cbn [occurs];
      rewrite <- E, starts_with_app; reflexivity.
  - cbn [app occurs]. rewrite IH. apply orb_true_r.
Qed.

Lemma groups_from_header b suf gs :
  groups_from b suf gs ->
  Forall (fun g => exists a rest,
            suf = a ++ ch_hash :: name g ++ ch_nl :: ch_dash :: rest) gs.
Proof.
  induction 1 as [b | b c s gs Hc _ IH | suf n region t gs E _ IH].
  - constructor.
  - eapply Forall_impl; [|exact IH]. intros g (a & rest & ->).
    now exists (c :: a), rest.
  - destruct (group_at_text _ _ _ _ E) as (-> & _). constructor.
    + now exists [], (region ++ t).
    + eapply Forall_impl; [|exact IH]. intros g (a & rest & ->).
      exists (ch_hash :: n ++ ch_nl :: ch_dash :: region ++ a), rest.
      cbn [app]. rewrite <- !app_assoc. cbn [app]. now rewrite <- app_assoc.
Qed.

(** C1, amended - A header gives a group only when a line feed and a [-]
    follow it directly: the header of every group of the document stands in
    the source followed by a line feed and [-]; so a source in which no line
    feed is followed by [-] (a header with no entry line after it, such as
    [#EmptySection] alone) has no group. *)
Theorem group_needs_entry_line (getImageLink : str -> str) (source : str)
    (d : AsyncTable) :
  formatTable getImageLink source = Ok d ->
  (forall g, In g (groups d) ->
     exists a rest, source = a ++ ch_hash :: name g ++ ch_nl :: ch_dash :: rest)
  /\ (occurs [ch_nl; ch_dash] source = false -> groups d = []).
Proof.
  intros Hd. destruct (groups_from_total source true) as [gs H].
  rewrite (formatTable_spec _ _ _ H) in Hd. injection Hd as <-. cbn [groups].
  pose proof (groups_from_header _ _ _ H) as Hh.
  split.
  - intros g Hg. rewrite Forall_forall in Hh. now apply Hh.
  - intros Ho. destruct gs as [|g gs]; [reflexivity|].
    inversion Hh as [|? ? (a & rest & Hs) _]; subst.
    replace (a ++ ch_hash :: name g ++ ch_nl :: ch_dash :: rest)
      with ((a ++ ch_hash :: name g) ++ [ch_nl; ch_dash] ++ rest) in Ho
      by (rewrite <- app_assoc; reflexivity).
    rewrite occurs_intro in Ho. discriminate.
Qed.

Lemma group_needs_entry_line_witness :
  formatTable no_links (src ["#EmptySection"]) = Ok {| thumbnails := []; groups := [] |}
  /\ (forall g, In g (groups {| thumbnails := []; groups := [] |}) ->
        exists a rest,
          src ["#EmptySection"] = a ++ ch_hash :: name g ++ ch_nl :: ch_dash :: rest)
  /\ (occurs [ch_nl; ch_dash] (src ["#EmptySection"]) = false ->
      groups {| thumbnails := []; groups := [] |} = []).
Proof.
  split; [vm_compute; reflexivity|].
  apply (group_needs_entry_line no_links (src ["#EmptySection"])).
  vm_compute. reflexivity.
Defined.

(** *** A group and what surrounds it *)

Lemma bol_end_rev b a :
  bol_end b a = match rev a with [] => b | c :: _ => is_lt c end.
Proof.
  destruct a as [|c a] using rev_ind; [reflexivity|].
  now rewrite bol_end_snoc, rev_app_distr.
Qed.

Lemma bol_end_true a : bol (rev a) = true -> bol_end true a = true.
Proof. rewrite bol_end_rev. unfold bol. now destruct (rev a). Qed.

Lemma group_in_context a n region rest gs1 gs2 :
  bol (rev a) = true ->
  Forall (fun c => not_lt c = true) n ->
  Forall (fun c => not_hash c = true) region ->
  hash_or_end rest = true ->
  groups_from true a gs1 ->
  groups_from (bol_after region) rest gs2 ->
  groups_from true (a ++ ch_hash :: n ++ ch_nl :: ch_dash :: region ++ rest)
              (gs1 ++ group_of n region :: gs2).
Proof.
  intros Ha Hn Hr Hrest H1 H2.
  apply bol_end_true in Ha.
  apply groups_from_app; [exact H1 | | reflexivity |].
  - destruct a as [|c a]; [reflexivity|].
    apply in_header_bol; [exact Ha | discriminate].
  - rewrite Ha. apply gf_hit with rest; [|exact H2].
    now apply group_at_intro.
Qed.

(** *** The lines of a region *)

Lemma plain_line_ok l : plain_line l = true -> line_ok l = true.
Proof.
  unfold plain_line, line_ok. induction l as [|c l IH]; [reflexivity|].
  cbn [forallb]. intros H. apply andb_prop in H as [Hc Hl].
  apply andb_prop in Hc as [-> _]. now rewrite IH.
Qed.

Lemma plain_lines_ok ls : forallb plain_line ls = true -> forallb line_ok ls = true.
Proof.
  induction ls as [|l ls IH]; [reflexivity|]. cbn [forallb]. intros H.
  apply andb_prop in H as [Hl Hls]. now rewrite plain_line_ok, IH.
Qed.

Lemma plain_line_not_hash l :
  plain_line l = true -> Forall (fun c => not_hash c = true) l.
Proof.
  unfold plain_line. induction l as [|c l IH]; [constructor|].
  cbn [forallb]. intros H. apply andb_prop in H as [Hc Hl].
  apply andb_prop in Hc as [_ Hc]. constructor; [exact Hc | now apply IH].
Qed.

Lemma unlines_not_hash ls :
  forallb plain_line ls = true -> Forall (fun c => not_hash c = true) (unlines ls).
Proof.
  induction ls as [|l ls IH]; [constructor|]. cbn [forallb]. intros H.
  apply andb_prop in H as [Hl Hls]. apply plain_line_not_hash in Hl.
  destruct ls as [|l' ls]; [exact Hl|].
  change (unlines (l :: l' :: ls)) with (l ++ ch_nl :: unlines (l' :: ls)).
  apply Forall_app. split; [exact Hl|]. constructor; [reflexivity | now apply IH].
Qed.

Lemma entry_of_line_nil : entry_of_line [] = [].
Proof. reflexivity. Qed.

Lemma groups_from_nil b gs : groups_from b [] gs -> gs = [].
Proof. now inversion 1. Qed.

Lemma group_lines_in_context a n ls tail gs1 gs2 :
  ls <> [] ->
  bol (rev a) = true ->
  forallb not_lt n = true ->
  forallb plain_line ls = true ->
  region_end tail = true ->
  groups_from true a gs1 ->
  groups_from true (tl tail) gs2 ->
  groups_from true (a ++ ch_hash :: n ++ ch_nl :: ch_dash :: unlines ls ++ tail)
    (gs1 ++ {| name := n; entries := flat_map entry_of_line ls |} :: gs2).
Proof.
  intros Hne Ha Hn Hls Htail H1 H2.
  pose proof (unlines_not_hash ls Hls) as Hr.
  pose proof (plain_lines_ok ls Hls) as Hok.
  apply forallb_Forall in Hn.
  destruct tail as [|c x].
  - cbn [tl] in H2. apply groups_from_nil in H2; subst gs2.
    replace {| name := n; entries := flat_map entry_of_line ls |}
      with (group_of n (unlines ls))
      by (unfold group_of; now rewrite lines_unlines).
    apply group_in_context; try assumption; try reflexivity; constructor.
  - cbn [region_end tl] in *. apply andb_prop in Htail as [Hc Hx].
    apply N.eqb_eq in Hc; subst c.
    replace (unlines ls ++ ch_nl :: x) with ((unlines ls ++ [ch_nl]) ++ x)
      by (now rewrite <- app_assoc).
    replace {| name := n; entries := flat_map entry_of_line ls |}
      with (group_of n (unlines ls ++ [ch_nl])).
    + apply group_in_context; try assumption.
      * apply Forall_app. split; [exact Hr | now constructor].
      * unfold bol_after. now rewrite rev_app_distr.
    + unfold group_of. rewrite lines_app_lt by reflexivity.
      rewrite lines_unlines by assumption.
      rewrite flat_map_app. cbn [lines flat_map].
      now rewrite entry_of_line_nil, !app_nil_r.
Qed.

Lemma entry_of_line_no_dash l : starts_with [ch_dash] l = false -> entry_of_line l = [].
Proof.
  unfold entry_of_line, entry_at. destruct l as [|c l]; [reflexivity|].
  cbn [starts_with]. rewrite andb_true_r. now intros ->.
Qed.

(** A group in a document, line by line: the entries of a group whose region
    is made of lines without [#] are those of its lines, the first line
    taken without the [-] that follows the header. *)
Lemma formatTable_group_lines (getImageLink : str -> str)
    (a n : str) (ls : list str) (tail : str) :
  ls <> [] ->
  bol (rev a) = true ->
  forallb not_lt n = true ->
  forallb plain_line ls = true ->
  region_end tail = true ->
  exists ts gs1 gs2,
    formatTable getImageLink
      (a ++ ch_hash :: n ++ ch_nl :: ch_dash :: unlines ls ++ tail)
    = Ok {| thumbnails := ts;
            groups := gs1 ++ {| name := n; entries := flat_map entry_of_line ls |}
                          :: gs2 |}.
Proof.
  intros Hne Ha Hn Hls Htail.
  destruct (groups_from_total a true) as [gs1 H1].
  destruct (groups_from_total (tl tail) true) as [gs2 H2].
  eexists _, gs1, gs2. apply formatTable_spec.
  now apply group_lines_in_context.
Qed.

(** *** The key and the value of an entry line *)

Lemma find_sep_none sep esc s :
  unescaped_in sep esc s = false -> find_sep sep esc s = None.
Proof.
  revert esc; induction s as [|c s IH]; intros esc; [reflexivity|].
  cbn [unescaped_in find_sep]. intros H. apply orb_false_elim in H as [-> H].
  rewrite (IH _ H). now destruct (is_lt c).
Qed.

Lemma find_sep_first sep v :
  is_lt sep = false ->
  forall k esc,
    forallb not_lt k = true ->
    unescaped_in sep esc k = false ->
    match rev k with [] => esc | c :: _ => (c =? ch_bslash)%N end = false ->
    find_sep sep esc (k ++ sep :: v) = Some (k, v).
Proof.
  intros Hsep. induction k as [|c k IH]; intros esc Hk Hu He.
  - cbn [rev] in He. subst esc. cbn [app find_sep].
    now rewrite Hsep, N.eqb_refl.
  - cbn [forallb unescaped_in] in *.
    apply andb_prop in Hk as [Hc Hk]. apply orb_false_elim in Hu as [Hcs Hu].
    cbn [app find_sep]. unfold not_lt in Hc. destruct (is_lt c); [discriminate|].
    rewrite Hcs, (IH (c =? ch_bslash)%N Hk Hu); [reflexivity|].
    cbn [rev] in He. destruct (rev k) as [|x r]; [exact He | exact He].
Qed.

Lemma line_head_line l : forallb not_lt l = true -> line_head l = l.
Proof.
  unfold line_head. induction l as [|c l IH]; [reflexivity|].
  cbn [forallb take_while]. intros H. apply andb_prop in H as [-> H].
  now rewrite IH.
Qed.

Lemma entry_of_line_split k v :
  line_ok k = true -> line_ok v = true ->
  unescaped_in ch_colon false k = false ->
  ends_with_bslash k = false ->
  entry_of_line (ch_dash :: k ++ ch_colon :: v) = [mk_entry k v].
Proof.
  intros Hk Hv Hu He. unfold entry_of_line, entry_at.
  replace (ch_dash =? ch_dash)%N with true by reflexivity.
  rewrite (find_sep_first ch_colon v eq_refl k false Hk Hu).
  - now rewrite (line_head_line v Hv).
  - unfold ends_with_bslash, escaped in He. exact He.
Qed.

Lemma forallb_line_ok_app bs l cs :
  forallb line_ok bs = true -> line_ok l = true -> forallb line_ok cs = true ->
  forallb line_ok (bs ++ l :: cs) = true.
Proof.
  intros Hb Hl Hc. rewrite forallb_app. cbn [forallb]. now rewrite Hb, Hl, Hc.
Qed.

(** *** A group of a document, line by line *)

Lemma line_ok_Forall l : line_ok l = true <-> Forall (fun c => not_lt c = true) l.
Proof. unfold line_ok. now rewrite forallb_forall, Forall_forall. Qed.

Lemma lines_not_lt s : Forall (Forall (fun c => not_lt c = true)) (lines s).
Proof.
  induction s as [|c s IH]; [repeat constructor|].
  cbn [lines]. destruct (is_lt c) eqn:E; [constructor; [constructor | exact IH]|].
  destruct (lines s) as [|l ls].
  - repeat constructor. unfold not_lt. now rewrite E.
  - inversion IH; subst. constructor; [|assumption].
    constructor; [|assumption]. unfold not_lt. now rewrite E.
Qed.

Lemma parse_groups_total source :
  exists gs, parse_groups source = Ok gs /\ groups_from true source gs.
Proof.
  destruct (groups_from_total source true) as [gs H].
  exists gs. split; [now apply parse_groups_spec | exact H].
Qed.

Lemma parse_groups_inv source gs :
  parse_groups source = Ok gs -> groups_from true source gs.
Proof.
  intros E. destruct (parse_groups_total source) as (gs' & E' & H).
  rewrite E in E'. now injection E' as <-.
Qed.

Lemma parse_entries_line l :
  line_ok l = true -> parse_entries l = Ok (entry_of_line l).
Proof.
  intros H. rewrite parse_entries_lines, lines_line by now apply line_ok_Forall.
  cbn [flat_map]. now rewrite app_nil_r.
Qed.

Lemma parse_entries_unlines ls :
  forallb line_ok ls = true ->
  parse_entries (unlines ls) = Ok (flat_map entry_of_line ls).
Proof.
  intros H. rewrite parse_entries_lines.
  now rewrite flat_map_lines_unlines by (reflexivity || assumption).
Qed.

Lemma unlines_cons c l ls : unlines ((c :: l) :: ls) = c :: unlines (l :: ls).
Proof. destruct ls; reflexivity. Qed.

(** The group of a header at a line start whose region is made of lines
    without [#]: its entries are those of its lines, line by line, the first
    line read without the [-] that the group pattern takes. *)
Lemma formatTable_region (getImageLink : str -> str)
    (a n first : str) (bs mid cs : list str) (tail : str)
    (gs1 gs2 : list Group) (e1 es1 es2 : list TableEntry) :
  bol (rev a) = true ->
  forallb not_lt n = true ->
  forallb plain_line (first :: bs ++ mid ++ cs) = true ->
  region_end tail = true ->
  parse_groups a = Ok gs1 ->
  parse_groups (tl tail) = Ok gs2 ->
  parse_entries first = Ok e1 ->
  parse_entries (unlines bs) = Ok es1 ->
  parse_entries (unlines cs) = Ok es2 ->
  exists d,
    formatTable getImageLink
      (a ++ ch_hash :: n ++ ch_nl
         :: unlines ((ch_dash :: first) :: bs ++ mid ++ cs) ++ tail) = Ok d
    /\ groups d
       = gs1 ++ {| name := n;
                   entries := e1 ++ es1 ++ flat_map entry_of_line mid ++ es2 |}
             :: gs2.
Proof.
  intros Ha Hn Hls Ht E1 E2 Ee1 Ees1 Ees2.
  apply parse_groups_inv in E1, E2.
  pose proof (plain_lines_ok _ Hls) as Hok.
  cbn [forallb] in Hok. apply andb_prop in Hok as [Hf Hok].
  rewrite !forallb_app in Hok.
  apply andb_prop in Hok as [Hb Hok]. apply andb_prop in Hok as [_ Hc].
  rewrite (parse_entries_line first Hf) in Ee1. injection Ee1 as <-.
  rewrite (parse_entries_unlines bs Hb) in Ees1. injection Ees1 as <-.
  rewrite (parse_entries_unlines cs Hc) in Ees2. injection Ees2 as <-.
  eexists. split.
  - rewrite unlines_cons. cbn [app]. apply formatTable_spec.
    apply group_lines_in_context;
      [discriminate | exact Ha | exact Hn | exact Hls | exact Ht | exact E1 | exact E2].
  - cbn [groups flat_map]. now rewrite !flat_map_app.
Qed.

(** The same, for a line [l] between the lines [bs] and [cs]. *)
Lemma formatTable_region_line (getImageLink : str -> str)
    (a n first : str) (bs : list str) (l : str) (cs : list str) (tail : str)
    (gs1 gs2 : list Group) (e1 es1 es2 : list TableEntry) :
  bol (rev a) = true ->
  forallb not_lt n = true ->
  forallb plain_line (first :: bs ++ cs) = true ->
  plain_line l = true ->
  region_end tail = true ->
  parse_groups a = Ok gs1 ->
  parse_groups (tl tail) = Ok gs2 ->
  parse_entries first = Ok e1 ->
  parse_entries (unlines bs) = Ok es1 ->
  parse_entries (unlines cs) = Ok es2 ->
  exists d,
    formatTable getImageLink
      (a ++ ch_hash :: n ++ ch_nl
         :: unlines ((ch_dash :: first) :: bs ++ l :: cs) ++ tail) = Ok d
    /\ groups d
       = gs1 ++ {| name := n; entries := e1 ++ es1 ++ entry_of_line l ++ es2 |}
             :: gs2.
Proof.
  intros Ha Hn Hls Hl Ht E1 E2 Ee1 Ees1 Ees2.
  destruct (formatTable_region getImageLink a n first bs [l] cs tail
              gs1 gs2 e1 es1 es2 Ha Hn) as (d & Hd & Hg); try assumption.
  - cbn [forallb] in *. apply andb_prop in Hls as [Hf Hls].
    rewrite forallb_app in Hls. apply andb_prop in Hls as [Hb Hc].
    rewrite Hf, !forallb_app. cbn [forallb]. now rewrite Hb, Hl, Hc.
  - exists d. split; [exact Hd|]. rewrite Hg. cbn [flat_map].
    now rewrite app_nil_r.
Qed.

Lemma plain_line_cons c l :
  plain_line (c :: l) = not_lt c && not_hash c && plain_line l.
Proof. reflexivity. Qed.

Lemma plain_line_app a b : plain_line (a ++ b) = plain_line a && plain_line b.
Proof. unfold plain_line. apply forallb_app. Qed.

Lemma plain_entry_line k v :
  plain_line k = true -> plain_line v = true ->
  plain_line (ch_dash :: k ++ ch_colon :: v) = true.
Proof.
  intros Hk Hv. rewrite plain_line_cons, plain_line_app, plain_line_cons.
  now rewrite Hk, Hv.
Qed.

(** A header that is not directly followed by a line feed and [-] gives no
    group. *)
Lemma header_without_dash a n x gs1 gs2 :
  bol (rev a) = true ->
  forallb not_lt n = true ->
  starts_with [ch_dash] x = false ->
  groups_from true a gs1 ->
  groups_from true x gs2 ->
  groups_from true (a ++ ch_hash :: n ++ ch_nl :: x) (gs1 ++ gs2).
Proof.
  intros Ha Hn Hx H1 H2. apply bol_end_true in Ha.
  apply groups_from_app; [exact H1 | | reflexivity |].
  - destruct a as [|c a]; [reflexivity|].
    apply in_header_bol; [exact Ha | discriminate].
  - rewrite Ha. apply forallb_Forall in Hn. apply gf_skip.
    + right. cbn [group_at].
      replace (ch_hash =? ch_hash)%N with true by reflexivity.
      unfold line_tail. rewrite (drop_while_app _ n _ Hn). cbn [drop_while].
      replace (not_lt ch_nl) with false by reflexivity.
      destruct x as [|c x]; [reflexivity|].
      cbn [starts_with] in Hx. rewrite andb_true_r in Hx. rewrite Hx.
      now rewrite andb_false_r.
    + replace (is_lt ch_hash) with false by reflexivity.
      clear Ha H1. induction Hn as [|c n Hc _ IH]; cbn [app].
      * apply gf_skip; [now left | exact H2].
      * apply gf_skip; [now left|]. unfold not_lt in Hc.
        destruct (is_lt c); [discriminate | exact IH].
Qed.

(** Text without [#], up to the next header line, holds no group. *)
Lemma groups_from_plain_text p tail gs :
  Forall (fun c => not_hash c = true) p ->
  region_end tail = true ->
  groups_from true (tl tail) gs ->
  forall b, groups_from b (p ++ tail) gs.
Proof.
  intros Hp Ht H. induction Hp as [|c p Hc _ IH]; intros b; cbn [app].
  - destruct tail as [|c x]; cbn [tl] in H.
    + apply groups_from_nil in H. subst gs. constructor.
    + cbn [region_end] in Ht. apply andb_prop in Ht as [Hc _].
      apply N.eqb_eq in Hc; subst c.
      apply gf_skip; [now right | exact H].
  - apply gf_skip; [|apply IH]. right. cbn [group_at].
    unfold not_hash in Hc. apply negb_true_iff in Hc. now rewrite Hc.
Qed.

Lemma unlines_no_dash junk rest tail :
  starts_with [ch_dash] junk = false ->
  region_end tail = true ->
  starts_with [ch_dash] (unlines (junk :: rest) ++ tail) = false.
Proof.
  intros Hj Ht. destruct junk as [|c j].
  - destruct rest as [|r rs]; [|reflexivity]. cbn [unlines app].
    destruct tail as [|c x]; [reflexivity|].
    cbn [region_end] in Ht. apply andb_prop in Ht as [Hc _].
    apply N.eqb_eq in Hc; subst c. reflexivity.
  - rewrite unlines_cons. exact Hj.
Qed.

(** The document of a source in which a line that does not start with [-]
    directly follows the header: the header gives no group. *)
Lemma formatTable_junk_first (getImageLink : str -> str)
    (a n junk : str) (rest : list str) (tail : str) (gs1 gs2 : list Group) :
  bol (rev a) = true ->
  forallb not_lt n = true ->
  forallb plain_line (junk :: rest) = true ->
  starts_with [ch_dash] junk = false ->
  region_end tail = true ->
  parse_groups a = Ok gs1 ->
  parse_groups (tl tail) = Ok gs2 ->
  exists d,
    formatTable getImageLink
      (a ++ ch_hash :: n ++ ch_nl :: unlines (junk :: rest) ++ tail) = Ok d
    /\ groups d = gs1 ++ gs2.
Proof.
  intros Ha Hn Hls Hj Ht E1 E2. apply parse_groups_inv in E1, E2.
  eexists. split.
  - apply formatTable_spec.
    apply (header_without_dash a n _ gs1 gs2 Ha Hn); [|exact E1|].
    + now apply unlines_no_dash.
    + apply groups_from_plain_text; [|exact Ht|exact E2].
      now apply unlines_not_hash.
  - reflexivity.
Qed.

(** *** Lines that give no entry *)

(** C3, amended - In the lines that follow a header, a line that is blank or
    does not start with [-] is ignored without error wherever it stands after
    the line that directly follows the header: the document has the same
    groups, with the same entries, with the line as without it, and the
    group of the header is produced with the entries of its other lines
    after the first, in order.
    Directly after the header the line is not ignored: the header then gives
    no group, the entries of its lines are not produced, and the other groups
    of the document stay as they are.  (The header starts a line, and the
    lines hold no [#]; the entries of the line [-first] are those the code
    reads from [first], see C6.) *)
Theorem non_entry_line_ignored (getImageLink : str -> str)
    (a n first : str) (bs : list str) (junk : str) (cs : list str) (tail : str) :
  bol (rev a) = true ->
  forallb not_lt n = true ->
  forallb plain_line (first :: bs ++ cs) = true ->
  plain_line junk = true ->
  starts_with [ch_dash] junk = false ->
  region_end tail = true ->
  exists d d' d'' gs1 gs2 e1 es1 es2,
    formatTable getImageLink
      (a ++ ch_hash :: n ++ ch_nl
         :: unlines ((ch_dash :: first) :: bs ++ junk :: cs) ++ tail) = Ok d
    /\ formatTable getImageLink
         (a ++ ch_hash :: n ++ ch_nl
            :: unlines ((ch_dash :: first) :: bs ++ cs) ++ tail) = Ok d'
    /\ formatTable getImageLink
         (a ++ ch_hash :: n ++ ch_nl
            :: unlines (junk :: (ch_dash :: first) :: bs ++ cs) ++ tail) = Ok d''
    /\ parse_groups a = Ok gs1
    /\ parse_groups (tl tail) = Ok gs2
    /\ parse_entries first = Ok e1
    /\ parse_entries (unlines bs) = Ok es1
    /\ parse_entries (unlines cs) = Ok es2
    /\ groups d' = gs1 ++ {| name := n; entries := e1 ++ es1 ++ es2 |} :: gs2
    /\ groups d = groups d'
    /\ groups d'' = gs1 ++ gs2.
Proof.
  intros Ha Hn Hls Hjp Hj Ht.
  destruct (parse_groups_total a) as (gs1 & E1 & _).
  destruct (parse_groups_total (tl tail)) as (gs2 & E2 & _).
  pose proof (parse_entries_lines first) as Ee1.
  pose proof (parse_entries_lines (unlines bs)) as Ees1.
  pose proof (parse_entries_lines (unlines cs)) as Ees2.
  destruct (formatTable_region_line getImageLink a n first bs junk cs tail
              _ _ _ _ _ Ha Hn Hls Hjp Ht E1 E2 Ee1 Ees1 Ees2) as (d & Hd & Hg).
  destruct (formatTable_region getImageLink a n first bs [] cs tail
              _ _ _ _ _ Ha Hn Hls Ht E1 E2 Ee1 Ees1 Ees2) as (d' & Hd' & Hg').
  destruct (formatTable_junk_first getImageLink a n junk
              ((ch_dash :: first) :: bs ++ cs) tail gs1 gs2 Ha Hn)
    as (d'' & Hd'' & Hg''); try assumption.
  { cbn [forallb] in *. apply andb_prop in Hls as [Hf Hls].
    rewrite Hjp, plain_line_cons, Hf, Hls. reflexivity. }
  rewrite (entry_of_line_no_dash junk Hj) in Hg.
  cbn [flat_map app] in Hg, Hg'.
  exists d, d', d'', gs1, gs2.
  eexists _, _, _. repeat split; try eassumption.
  now rewrite Hg.
Qed.

Lemma non_entry_line_ignored_witness :
  bol (rev (src ["!pic"; ""])) = true
  /\ forallb not_lt (lit "Stats") = true
  /\ forallb plain_line (lit "HP:10" :: [lit "-MP:20"] ++ [lit ""; lit "-XP:3"]) = true
  /\ plain_line (lit "a note") = true
  /\ starts_with [ch_dash] (lit "a note") = false
  /\ region_end (src [""; "#Next"; "-a"; "-b:c"]) = true
  /\ exists d d' d'' gs1 gs2 e1 es1 es2,
       formatTable no_links
         (src ["!pic"; ""] ++ ch_hash :: lit "Stats" ++ ch_nl
            :: unlines ((ch_dash :: lit "HP:10")
                        :: [lit "-MP:20"] ++ lit "a note" :: [lit ""; lit "-XP:3"])
            ++ src [""; "#Next"; "-a"; "-b:c"]) = Ok d
       /\ formatTable no_links
            (src ["!pic"; ""] ++ ch_hash :: lit "Stats" ++ ch_nl
               :: unlines ((ch_dash :: lit "HP:10")
                           :: [lit "-MP:20"] ++ [lit ""; lit "-XP:3"])
               ++ src [""; "#Next"; "-a"; "-b:c"]) = Ok d'
       /\ formatTable no_links
            (src ["!pic"; ""] ++ ch_hash :: lit "Stats" ++ ch_nl
               :: unlines (lit "a note" :: (ch_dash :: lit "HP:10")
                           :: [lit "-MP:20"] ++ [lit ""; lit "-XP:3"])
               ++ src [""; "#Next"; "-a"; "-b:c"]) = Ok d''
       /\ parse_groups (src ["!pic"; ""]) = Ok gs1
       /\ parse_groups (tl (src [""; "#Next"; "-a"; "-b:c"])) = Ok gs2
       /\ parse_entries (lit "HP:10") = Ok e1
       /\ parse_entries (unlines [lit "-MP:20"]) = Ok es1
       /\ parse_entries (unlines [lit ""; lit "-XP:3"]) = Ok es2
       /\ groups d' = gs1 ++ {| name := lit "Stats"; entries := e1 ++ es1 ++ es2 |} :: gs2
       /\ groups d = groups d'
       /\ groups d'' = gs1 ++ gs2.
Proof.
  repeat (split; [reflexivity|]).
  apply (non_entry_line_ignored no_links (src ["!pic"; ""]) (lit "Stats")
           (lit "HP:10") [lit "-MP:20"] (lit "a note") [lit ""; lit "-XP:3"]
           (src [""; "#Next"; "-a"; "-b:c"])); reflexivity.
Defined.

(** *** The value of an entry *)









(** The examples of the multi-value rule, in a group; the first line after
    the header gives no entry (C6). *)
Example tags_group :
  formatTable no_links
    (src ["#G"; "-One:x"; "-Tags:Red;Blue;Green"; "-Tags:Red\;White;Blue"; "-Two:y"])
  = Ok {| thumbnails := [];
          groups :=
            [{| name := lit "G";
                entries :=
                  [{| key := lit "Tags";
                      value := VList [lit "Red"; lit "Blue"; lit "Green"] |};
                   {| key := lit "Tags";
                      value := VList [lit "Red;White"; lit "Blue"] |};
                   {| key := lit "Two"; value := VString (lit "y") |}] |}] |}.
Proof. vm_compute. reflexivity. Qed.

(** *** The URL and the description of a thumbnail line *)

Lemma thumb_split_first d :
  forall u esc,
    forallb not_lt u = true ->
    unescaped_in ch_pipe esc u = false ->
    match rev u with [] => esc | c :: _ => (c =? ch_bslash)%N end = false ->
    thumb_split esc (u ++ ch_pipe :: d) = (u, Some (line_head d), line_tail d).
Proof.
  induction u as [|c u IH]; intros esc Hu Hn He.
  - cbn [rev] in He. subst esc. reflexivity.
  - cbn [forallb unescaped_in] in *.
    apply andb_prop in Hu as [Hc Hu]. apply orb_false_elim in Hn as [Hcp Hn].
    cbn [app thumb_split]. rewrite Hcp.
    unfold not_lt in Hc. destruct (is_lt c); [discriminate|].
    rewrite (IH (c =? ch_bslash)%N Hu Hn); [reflexivity|].
    cbn [rev] in He. destruct (rev u) as [|x r]; exact He.
Qed.

Lemma thumb_split_none :
  forall s esc,
    forallb not_lt s = true ->
    unescaped_in ch_pipe esc s = false ->
    thumb_split esc s = (s, None, []).
Proof.
  induction s as [|c s IH]; intros esc Hs Hn; [reflexivity|].
  cbn [forallb unescaped_in] in *.
  apply andb_prop in Hs as [Hc Hs]. apply orb_false_elim in Hn as [Hcp Hn].
  cbn [thumb_split]. rewrite Hcp.
  unfold not_lt in Hc. destruct (is_lt c); [discriminate|].
  now rewrite (IH _ Hs Hn).
Qed.

(** A thumbnail line is cut at its first [|] that no backslash precedes; the
    text before it goes to the link resolver as it is. *)
Lemma thumbnail_with_description (getImageLink : str -> str) (u d : str) :
  line_ok u = true -> line_ok d = true ->
  unescaped_in ch_pipe false u = false ->
  ends_with_bslash u = false ->
  parse_thumbnails getImageLink (ch_bang :: u ++ ch_pipe :: d)
  = Ok [{| url := getImageLink u; description := Some d |}].
Proof.
  intros Hu Hd Hn He. rewrite parse_thumbnails_lines.
  rewrite lines_line.
  - cbn [flat_map thumbnail_of_line].
    replace (ch_bang =? ch_bang)%N with true by reflexivity.
    rewrite (thumb_split_first d u false Hu Hn He).
    now rewrite (line_head_line d Hd).
  - apply forallb_Forall. cbn [forallb]. rewrite forallb_app. cbn [forallb].
    unfold line_ok in *. now rewrite Hu, Hd.
Qed.

(** A thumbnail line without such a [|] has no description. *)
Lemma thumbnail_without_description (getImageLink : str -> str) (u : str) :
  line_ok u = true ->
  unescaped_in ch_pipe false u = false ->
  parse_thumbnails getImageLink (ch_bang :: u)
  = Ok [{| url := getImageLink u; description := None |}].
Proof.
  intros Hu Hn. rewrite parse_thumbnails_lines.
  rewrite lines_line.
  - cbn [flat_map thumbnail_of_line].
    replace (ch_bang =? ch_bang)%N with true by reflexivity.
    now rewrite (thumb_split_none u false Hu Hn).
  - apply forallb_Forall. cbn [forallb]. exact Hu.
Qed.

(** ** The link pattern of the processor *)

Lemma pm_Then p q st k : pm (Then p q) st k = pm p st (fun st' => pm q st' k).
Proof. reflexivity. Qed.

Lemma pm_InputEnd st k :
  pm InputEnd st k = match after st with [] => k st | _ :: _ => Ok None end.
Proof. reflexivity. Qed.

(** The end of the link pattern: []]] and the end of the input. *)
Lemma close_end st :
  m (Char ch_rbr ++ Char ch_rbr)%re st (fun st' => pm InputEnd st' accept)
  = if closes (after st)
    then Ok (Some (MState (ch_rbr :: ch_rbr :: before st) [] (caps st)))
    else Ok None.
Proof.
  rewrite m_Seq, m_Char. destruct st as [pre [|a [|b s]] c0]; try reflexivity.
  - rewrite step1_cons. cbn [closes after]. now destruct (a =? ch_rbr)%N.
  - rewrite step1_cons. cbn [closes after before caps].
    destruct (a =? ch_rbr)%N eqn:Ea; [|now destruct s].
    apply N.eqb_eq in Ea; subst a.
    rewrite m_Char, step1_cons.
    destruct (b =? ch_rbr)%N eqn:Eb; [|now destruct s].
    apply N.eqb_eq in Eb; subst b.
    rewrite pm_InputEnd. cbn [after]. now destruct s.
Qed.

Lemma endIndex_grown a p s c e :
  e < length p ->
  (endIndex (MState (rev a ++ p) s c) =? e) = false.
Proof.
  intros H. unfold endIndex; cbn [before]. apply Nat.eqb_neq.
  rewrite length_app. lia.
Qed.

(** The lazy group 2 of the link pattern. *)
Lemma label_scan p0 s0 c0 e :
  e < length p0 ->
  forall s lacc, s0 = lacc ++ s ->
    lazy_scan
      (fun st' =>
         (fun st3 =>
            if endIndex st3 =? e then Ok None
            else m (Char ch_rbr ++ Char ch_rbr)%re st3
                   (fun st4 => pm InputEnd st4 accept))
           (MState (before st') (after st')
              (upd 2 (Some (consumed (MState p0 s0 c0) st')) (caps st'))))
      (rev lacc ++ p0) s c0
    = Ok match label_of s with
         | Some l =>
             Some (MState (ch_rbr :: ch_rbr :: rev (lacc ++ l) ++ p0) []
                          (upd 2 (Some (lacc ++ l)) c0))
         | None => None
         end.
Proof.
  intros He. induction s as [|c s IH]; intros lacc ->.
  - cbn [lazy_scan label_of closes]. cbv beta. cbn [before after caps].
    rewrite endIndex_grown by exact He. rewrite close_end.
    reflexivity.
  - cbn [lazy_scan]. cbv beta. cbn [before after caps].
    rewrite endIndex_grown by exact He. rewrite close_end.
    cbn [before after caps]. rewrite consumed_app.
    replace (label_of (c :: s))
      with (if closes (c :: s) then Some []
            else if not_lt c
                 then match label_of s with
                      | Some l => Some (c :: l)
                      | None => None
                      end
                 else None)
      by (destruct s; reflexivity).
    destruct (closes (c :: s)); [now rewrite app_nil_r|].
    destruct (not_lt c); [|reflexivity].
    specialize (IH (lacc ++ [c])).
    rewrite rev_app_distr in IH. cbn [rev app] in IH.
    rewrite <- app_assoc in IH. cbn [app] in IH.
    rewrite IH by reflexivity.
    destruct (label_of s) as [l|]; [|reflexivity].
    now rewrite <- !app_assoc.
Qed.

(** The link pattern after its group 1. *)
Lemma link_tail st :
  m (Opt link_opt_re ++ Char ch_rbr ++ Char ch_rbr)%re st
    (fun st4 => pm InputEnd st4 accept)
  = match (if escaped (before st) then None
           else match after st with
                | c :: s =>
                    if (c =? ch_pipe)%N
                    then match label_of s with
                         | Some l =>
                             Some (MState (ch_rbr :: ch_rbr :: rev l ++ c :: before st) []
                                          (upd 2 (Some l) (caps st)))
                         | None => None
                         end
                    else None
                | [] => None
                end)
    with
    | Some st' => Ok (Some st')
    | None =>
        if closes (after st)
        then Ok (Some (MState (ch_rbr :: ch_rbr :: before st) [] (caps st)))
        else Ok None
    end.
Proof.
  unfold link_opt_re.
  change (m _ st (fun st4 => pm InputEnd st4 accept)) with
    (m (NotAfter ch_bslash) st (fun s1 =>
       m (Char ch_pipe) s1 (fun s2 =>
         m (Capture 2 (Star false Dot)) s2 (fun st3 =>
           if endIndex st3 =? endIndex st then Ok None
           else m (Char ch_rbr ++ Char ch_rbr)%re st3
                  (fun st4 => pm InputEnd st4 accept))))
     <|> m (Char ch_rbr ++ Char ch_rbr)%re st (fun st4 => pm InputEnd st4 accept)).
  rewrite close_end, m_NotAfter.
  destruct (escaped (before st)); [reflexivity|].
  rewrite m_Char. destruct st as [pre [|c s] c0]; [reflexivity|].
  rewrite step1_cons. cbn [before after caps].
  destruct (c =? ch_pipe)%N eqn:Ec; [|reflexivity].
  rewrite m_Capture, lazy_dot. cbn [before after caps].
  pose proof (label_scan (c :: pre) s c0 (endIndex (MState pre (c :: s) c0))
                (Nat.lt_succ_diag_r _) s [] eq_refl) as H.
  cbn [rev app] in H.
  match goal with
  | |- (match ?x with _ => _ end) = _ =>
      replace x with
        (Ok match label_of s with
            | Some l =>
                Some (MState (ch_rbr :: ch_rbr :: rev l ++ c :: pre) []
                             (upd 2 (Some l) c0))
            | None => None
            end : outcome)
        by (symmetry; exact H)
  end.
  apply N.eqb_eq in Ec; subst c.
  destruct (label_of s) as [l|]; reflexivity.
Qed.

(** The lazy group 1 of the link pattern. *)
Lemma link_scan p1 s0 c0 :
  forall s tacc, s0 = tacc ++ s ->
    lazy_scan
      (fun st' =>
         m (Opt link_opt_re ++ Char ch_rbr ++ Char ch_rbr)%re
           (MState (before st') (after st')
              (upd 1 (Some (consumed (MState p1 s0 c0) st')) (caps st')))
           (fun st4 => pm InputEnd st4 accept))
      (rev tacc ++ p1) s c0
    = Ok match link_split (escaped (rev tacc ++ p1)) s with
         | Some (t, l) =>
             Some (MState (ch_rbr :: ch_rbr :: rev (desc_text l)
                             ++ rev (tacc ++ t) ++ p1) []
                          (set_desc l (upd 1 (Some (tacc ++ t)) c0)))
         | None => None
         end.
Proof.
  induction s as [|c s IH]; intros tacc ->.
  - cbn [lazy_scan link_split]. rewrite link_tail. cbn [before after caps closes].
    now destruct (escaped _).
  - cbn [lazy_scan link_split]. rewrite link_tail.
    cbn [before after caps]. rewrite consumed_app.
    assert (Hrec :
      ((if closes (c :: s)
        then Ok (Some (MState (ch_rbr :: ch_rbr :: rev tacc ++ p1) []
                              (upd 1 (Some tacc) c0)))
        else Ok None)
       <|> (if not_lt c
            then lazy_scan
                   (fun st' =>
                      m (Opt link_opt_re ++ Char ch_rbr ++ Char ch_rbr)%re
                        (MState (before st') (after st')
                           (upd 1 (Some (consumed (MState p1 (tacc ++ c :: s) c0) st'))
                              (caps st')))
                        (fun st4 => pm InputEnd st4 accept))
                   (c :: rev tacc ++ p1) s c0
            else Ok None))
      = Ok match (if closes (c :: s) then Some ([], None)
                  else if not_lt c
                       then match link_split (c =? ch_bslash)%N s with
                            | Some (t, l) => Some (c :: t, l)
                            | None => None
                            end
                       else None)
           with
           | Some (t, l) =>
               Some (MState (ch_rbr :: ch_rbr :: rev (desc_text l)
                               ++ rev (tacc ++ t) ++ p1) []
                            (set_desc l (upd 1 (Some (tacc ++ t)) c0)))
           | None => None
           end).
    { destruct (closes (c :: s)).
      - cbn [desc_text set_desc rev app]. now rewrite app_nil_r.
      - destruct (not_lt c); [|reflexivity].
        specialize (IH (tacc ++ [c])).
        rewrite rev_app_distr in IH. cbn [rev app] in IH.
        rewrite <- app_assoc in IH. cbn [app] in IH.
        rewrite IH by reflexivity. cbn [escaped].
        destruct (link_split (c =? ch_bslash)%N s) as [[t l]|]; [|reflexivity].
        now rewrite <- !app_assoc. }
    destruct (escaped (rev tacc ++ p1)) eqn:Ee.
    + rewrite andb_false_r. exact Hrec.
    + rewrite andb_true_r. destruct (c =? ch_pipe)%N eqn:Ec; [|exact Hrec].
      destruct (label_of s) as [l|]; [|exact Hrec].
      apply N.eqb_eq in Ec; subst c.
      cbn [desc_text set_desc rev app]. rewrite app_nil_r.
      now rewrite <- !app_assoc.
Qed.

Lemma link_split_text esc s t l :
  link_split esc s = Some (t, l) ->
  s = t ++ desc_text l ++ [ch_rbr; ch_rbr].
Proof.
  assert (Hlabel : forall x y, label_of x = Some y -> x = y ++ [ch_rbr; ch_rbr]).
  { induction x as [|c x IHx]; intros y; [discriminate|].
    replace (label_of (c :: x))
      with (if closes (c :: x) then Some []
            else if not_lt c
                 then match label_of x with
                      | Some l => Some (c :: l)
                      | None => None
                      end
                 else None)
      by (destruct x; reflexivity).
    destruct (closes (c :: x)) eqn:Ecl.
    - intros [= <-]. cbn [closes] in Ecl. destruct x as [|b [|? ?]]; try discriminate.
      apply andb_prop in Ecl as [E1 E2]. apply N.eqb_eq in E1, E2. now subst.
    - destruct (not_lt c); [|discriminate].
      destruct (label_of x) as [l'|] eqn:El; [|discriminate].
      intros [= <-]. now rewrite (IHx l' eq_refl). }
  revert esc t l; induction s as [|c s IH]; intros esc t l; [discriminate|].
  cbn [link_split].
  destruct (if (c =? ch_pipe)%N && negb esc then label_of s else None) as [l'|] eqn:E.
  - intros [= <- <-]. destruct ((c =? ch_pipe)%N && negb esc) eqn:Ep; [|discriminate].
    apply andb_prop in Ep as [Ep _]. apply N.eqb_eq in Ep; subst c.
    cbn [desc_text app]. now rewrite (Hlabel s l' E).
  - destruct (closes (c :: s)) eqn:Ecl.
    + intros [= <- <-]. cbn [closes] in Ecl. destruct s as [|b [|? ?]]; try discriminate.
      apply andb_prop in Ecl as [E1 E2]. apply N.eqb_eq in E1, E2. now subst.
    + destruct (not_lt c); [|discriminate].
      destruct (link_split (c =? ch_bslash)%N s) as [[t' l']|] eqn:Es; [|discriminate].
      intros [= <- <-]. cbn [app]. now rewrite (IH _ _ _ Es).
Qed.

Lemma link_here pre suf :
  pmatch_here link_re pre suf
  = Ok match pre with
       | [] =>
           match link_parts suf with
           | Some (t, l) => Some (MState (rev suf) [] [None; Some t; l])
           | None => None
           end
       | _ :: _ => None
       end.
Proof.
  unfold pmatch_here, link_re. rewrite pm_Then.
  destruct pre as [|x pre]; [|reflexivity].
  cbn [pm before].
  rewrite m_Seq, m_Char. unfold link_parts.
  destruct suf as [|a [|b s]]; try reflexivity.
  - rewrite step1_cons. destruct (a =? ch_lbr)%N; reflexivity.
  - rewrite step1_cons. destruct (a =? ch_lbr)%N eqn:Ea; [|reflexivity].
    rewrite m_Seq, m_Char, step1_cons.
    destruct (b =? ch_lbr)%N eqn:Eb; [|reflexivity].
    apply N.eqb_eq in Ea, Eb; subst a b. cbn [andb].
    rewrite m_Seq, m_Capture, lazy_dot. cbn [before after caps].
    pose proof (link_scan [ch_lbr; ch_lbr] s (repeat None (S (pgroups link_re)))
                  s [] eq_refl) as H.
    cbn [rev app escaped] in H.
    replace (ch_lbr =? ch_bslash)%N with false in H by reflexivity.
    etransitivity; [exact H|].
    destruct (link_split false s) as [[t l]|] eqn:E; [|reflexivity].
    apply link_split_text in E. subst s. cbn [rev app].
    rewrite !rev_app_distr. cbn [rev app]. rewrite <- !app_assoc. cbn [app].
    now destruct l.
Qed.

(** [value.match(link_re)], for every value. *)
Lemma js_match_link v :
  js_match link_re v
  = Ok match link_parts v with
       | Some (t, l) => Some [Some v; Some t; l]
       | None => None
       end.
Proof.
  assert (Hrest : forall suf pre, pre <> [] -> pexec link_re pre suf = Ok None).
  { induction suf as [|c suf IH]; intros pre Hpre; cbn [pexec];
      rewrite link_here; (destruct pre; [congruence|]); [reflexivity|].
    apply IH. discriminate. }
  unfold js_match. destruct v as [|c v]; [reflexivity|].
  cbn [pexec]. rewrite link_here.
  destruct (link_parts (c :: v)) as [[t l]|].
  - unfold finish. cbn [before after caps upd].
    pose proof (consumed_app (c :: v) [] [] [] [None; Some t; l]) as H.
    rewrite !app_nil_r in H. now rewrite H.
  - now rewrite Hrest.
Qed.

(** * Further properties of the parser *)

(** ** The pieces of a value *)

Lemma join_with_cons sep c l ls :
  join_with sep ((c :: l) :: ls) = c :: join_with sep (l :: ls).
Proof. destruct ls; reflexivity. Qed.

Lemma join_split_semi s : forall esc, join_with [ch_semi] (split_semi esc s) = s.
Proof.
  induction s as [|c s IH]; intros esc; [reflexivity|].
  cbn [split_semi]. destruct ((c =? ch_semi)%N && negb esc) eqn:E.
  - apply andb_prop in E as [E _]. apply N.eqb_eq in E; subst c.
    pose proof (split_semi_nonempty false s) as Hne.
    specialize (IH false). destruct (split_semi false s) as [|l ls]; [congruence|].
    change (join_with [ch_semi] ([] :: l :: ls))
      with ([] ++ [ch_semi] ++ join_with [ch_semi] (l :: ls)).
    now rewrite IH.
  - pose proof (split_semi_nonempty (c =? ch_bslash)%N s) as Hne.
    specialize (IH (c =? ch_bslash)%N).
    destruct (split_semi _ s) as [|l ls]; [congruence|].
    rewrite join_with_cons. f_equal. exact IH.
Qed.

Lemma split_semi_pieces s :
  forall esc,
    match split_semi esc s with
    | x :: xs =>
        unescaped_in ch_semi esc x = false
        /\ Forall (fun seg => unescaped_in ch_semi false seg = false) xs
    | [] => True
    end.
Proof.
  induction s as [|c s IH]; intros esc; [now split|].
  cbn [split_semi]. destruct ((c =? ch_semi)%N && negb esc) eqn:E.
  - split; [reflexivity|]. specialize (IH false).
    destruct (split_semi false s) as [|l ls]; [constructor|].
    destruct IH as [H1 H2]. now constructor.
  - specialize (IH (c =? ch_bslash)%N).
    destruct (split_semi _ s) as [|l ls].
    + split; [|constructor]. cbn [unescaped_in]. now rewrite E.
    + destruct IH as [H1 H2]. split; [|exact H2].
      cbn [unescaped_in]. now rewrite E, H1.
Qed.

(** X1 - Splitting a value text loses nothing: the pieces that [split] gives,
    joined again with [;], are the value text, and no piece holds a [;] that
    no backslash precedes. *)
Theorem value_split_joins (v : str) :
  exists segs,
    split semi_re v = Ok segs
    /\ join_with [ch_semi] segs = v
    /\ Forall (fun seg => unescaped_in ch_semi false seg = false) segs.
Proof.
  exists (split_semi false v). split; [apply split_semi_ok|].
  split; [apply join_split_semi|].
  pose proof (split_semi_pieces v false) as H.
  destruct (split_semi false v) as [|x xs]; [constructor|].
  destruct H as [H1 H2]. now constructor.
Qed.

(** ** Line terminators and [#] never reach the document *)

Lemma Forall_skipn {A} (P : A -> Prop) n (l : list A) :
  Forall P l -> Forall P (skipn n l).
Proof.
  revert l; induction n as [|n IH]; intros l H; [exact H|].
  destruct l as [|x l]; [constructor|]. inversion H; subst. now apply IH.
Qed.

Lemma replace_Forall (P : char -> Prop) pat rep s :
  Forall P rep -> Forall P s -> Forall P (replace pat rep s).
Proof.
  intros Hrep. induction s as [|c s IH]; intros Hs.
  - cbn [replace]. destruct (starts_with pat []); [|constructor].
    apply Forall_app. split; [exact Hrep | apply Forall_skipn; constructor].
  - cbn [replace]. destruct (starts_with pat (c :: s)).
    + apply Forall_app. split; [exact Hrep | now apply Forall_skipn].
    + inversion Hs; subst. constructor; [assumption | now apply IH].
Qed.

Lemma split_semi_Forall (P : char -> Prop) s :
  Forall P s -> forall esc, Forall (Forall P) (split_semi esc s).
Proof.
  induction 1 as [|c s Hc _ IH]; intros esc; [repeat constructor|].
  cbn [split_semi]. destruct ((c =? ch_semi)%N && negb esc).
  - constructor; [constructor | apply IH].
  - specialize (IH (c =? ch_bslash)%N).
    destruct (split_semi _ s) as [|l ls]; [repeat constructor; assumption|].
    inversion IH; subst. constructor; [now constructor | assumption].
Qed.

Lemma lines_Forall (P : char -> Prop) s :
  Forall P s -> Forall (Forall P) (lines s).
Proof.
  induction 1 as [|c s Hc _ IH]; [repeat constructor|].
  cbn [lines]. destruct (is_lt c); [constructor; [constructor | exact IH]|].
  destruct (lines s) as [|l ls]; [repeat constructor; assumption|].
  inversion IH; subst. constructor; [now constructor | assumption].
Qed.

Lemma plain_line_Forall l : plain_line l = true <-> Forall plain_char l.
Proof.
  unfold plain_line, plain_char. rewrite forallb_forall, Forall_forall.
  split; intros H c Hc; specialize (H c Hc).
  - now apply andb_prop in H.
  - destruct H as [-> ->]. reflexivity.
Qed.

Lemma entry_of_line_plain l e :
  Forall plain_char l ->
  In e (entry_of_line l) ->
  plain_line (key e) = true /\ forallb plain_line (value_texts (value e)) = true.
Proof.
  intros Hl. unfold entry_of_line.
  destruct (entry_at l) as [[[k v] t]|] eqn:E; [|easy].
  intros [<- | []].
  destruct (entry_at_text _ _ _ _ E) as [Hh _].
  assert (Hlt : forallb not_lt l = true).
  { apply forallb_forall. intros c Hc. rewrite Forall_forall in Hl.
    now destruct (Hl c Hc). }
  rewrite (line_head_line l Hlt) in Hh. subst l.
  inversion Hl as [|? ? _ Hkv]; subst.
  apply Forall_app in Hkv as [Hk Hv]. inversion Hv as [|? ? Hcolon Hv']; subst.
  cbn [mk_entry key value]. split.
  - apply plain_line_Forall. unfold decode_key.
    apply replace_Forall; [now repeat constructor | exact Hk].
  - assert (Hsegs : Forall (Forall plain_char)
                      (List.map decode_value (split_semi false v))).
    { apply Forall_map. eapply Forall_impl; [|apply (split_semi_Forall _ v Hv')].
      intros seg Hseg. unfold decode_value.
      apply replace_Forall; [now repeat constructor | exact Hseg]. }
    assert (Hb : forallb plain_line (List.map decode_value (split_semi false v)) = true).
    { apply forallb_forall. intros x Hx. apply plain_line_Forall.
      rewrite Forall_forall in Hsegs. now apply Hsegs. }
    unfold value_of.
    destruct (List.map decode_value (split_semi false v)) as [|s1 [|s2 segs]];
      cbn [length Nat.eqb value_texts nth]; exact Hb.
Qed.

Lemma groups_from_plain b suf gs :
  groups_from b suf gs ->
  Forall (fun g =>
            line_ok (name g) = true
            /\ Forall (fun e =>
                 plain_line (key e) = true
                 /\ forallb plain_line (value_texts (value e)) = true)
                 (entries g)) gs.
Proof.
  induction 1 as [b | b c s gs Hc _ IH | suf n region t gs E _ IH];
    [constructor | exact IH |].
  constructor; [|exact IH].
  destruct (group_at_text _ _ _ _ E) as (_ & Hn & Hr & _).
  cbn [group_of name entries]. split; [now apply line_ok_Forall|].
  apply Forall_forall. intros e He.
  apply in_flat_map in He as (l & Hl & He).
  apply (entry_of_line_plain l e); [|exact He].
  pose proof (lines_Forall _ region Hr) as H1.
  pose proof (lines_not_lt region) as H2.
  rewrite Forall_forall in H1, H2. specialize (H1 l Hl). specialize (H2 l Hl).
  apply Forall_forall. intros c Hc. rewrite Forall_forall in H1, H2.
  split; [now apply H2 | now apply H1].
Qed.

Lemma thumbnail_of_line_description getImageLink l t :
  In t (thumbnail_of_line getImageLink l) ->
  match description t with Some x => line_ok x = true | None => True end.
Proof.
  unfold thumbnail_of_line. destruct l as [|c s]; [easy|].
  destruct (c =? ch_bang)%N; [|easy].
  assert (H : forall esc,
             match snd (fst (thumb_split esc s)) with
             | Some x => line_ok x = true
             | None => True
             end).
  { induction s as [|x s IH]; intros esc; [exact I|].
    cbn [thumb_split]. destruct ((x =? ch_pipe)%N && negb esc).
    - cbn [fst snd]. apply line_ok_Forall, line_head_not_lt.
    - destruct (is_lt x); [exact I|]. specialize (IH (x =? ch_bslash)%N).
      now destruct (thumb_split _ s) as [[u d] t']. }
  specialize (H false). destruct (thumb_split false s) as [[u d] t'].
  intros [<- | []]. exact H.
Qed.

(** X2 - No line terminator and no [#] ever reaches the texts of a document:
    for every source, the name of every group holds no line terminator, the
    key and every value text of every entry hold neither a line terminator
    nor a [#], and the description of every thumbnail holds no line
    terminator. *)
Theorem document_texts_clean (getImageLink : str -> str) (source : str) :
  exists d,
    formatTable getImageLink source = Ok d
    /\ Forall (fun g =>
                 line_ok (name g) = true
                 /\ Forall (fun e =>
                      plain_line (key e) = true
                      /\ forallb plain_line (value_texts (value e)) = true)
                      (entries g))
              (groups d)
    /\ Forall (fun t =>
                 match description t with
                 | Some x => line_ok x = true
                 | None => True
                 end)
              (thumbnails d).
Proof.
  destruct (groups_from_total source true) as [gs H].
  eexists. split; [apply (formatTable_spec _ _ _ H)|]. cbn [groups thumbnails].
  split; [now apply (groups_from_plain true source)|].
  apply Forall_forall. intros t Ht.
  apply in_flat_map in Ht as (l & _ & Ht).
  now apply (thumbnail_of_line_description getImageLink l).
Qed.

(** ** Sources put one after the other *)

(** X3 - Thumbnails and entries are found line by line: the thumbnails of two
    texts joined by a line terminator are those of the first followed by
    those of the second, and so are the entries of a region. *)
Theorem lines_compose (getImageLink : str -> str) (a : str) (c : char) (b : str) :
  is_lt c = true ->
  exists ta tb ea eb,
    parse_thumbnails getImageLink a = Ok ta
    /\ parse_thumbnails getImageLink b = Ok tb
    /\ parse_thumbnails getImageLink (a ++ c :: b) = Ok (ta ++ tb)
    /\ parse_entries a = Ok ea
    /\ parse_entries b = Ok eb
    /\ parse_entries (a ++ c :: b) = Ok (ea ++ eb).
Proof.
  intros Hc.
  exists (flat_map (thumbnail_of_line getImageLink) (lines a)),
         (flat_map (thumbnail_of_line getImageLink) (lines b)),
         (flat_map entry_of_line (lines a)), (flat_map entry_of_line (lines b)).
  rewrite !parse_thumbnails_lines, !parse_entries_lines.
  rewrite (lines_app_lt a c b Hc), !flat_map_app.
  repeat split.
Qed.

Lemma lines_compose_witness :
  is_lt ch_cr = true
  /\ exists ta tb ea eb,
       parse_thumbnails no_links (src ["!a|x"; "-k:v"]) = Ok ta
       /\ parse_thumbnails no_links (src ["-l:w"; "!b"]) = Ok tb
       /\ parse_thumbnails no_links (src ["!a|x"; "-k:v"] ++ ch_cr :: src ["-l:w"; "!b"])
          = Ok (ta ++ tb)
       /\ parse_entries (src ["!a|x"; "-k:v"]) = Ok ea
       /\ parse_entries (src ["-l:w"; "!b"]) = Ok eb
       /\ parse_entries (src ["!a|x"; "-k:v"] ++ ch_cr :: src ["-l:w"; "!b"])
          = Ok (ea ++ eb).
Proof.
  split; [reflexivity|].
  apply (lines_compose no_links (src ["!a|x"; "-k:v"]) ch_cr (src ["-l:w"; "!b"])).
  reflexivity.
Defined.

(** X4 - Groups are found header by header: when a text is empty or ends with
    a line terminator, and the text put after it is empty or starts with [#],
    the groups of the two together are those of the first followed by those
    of the second. *)
Theorem groups_compose_at_header (a x : str) :
  bol (rev a) = true ->
  hash_or_end x = true ->
  exists ga gx,
    parse_groups a = Ok ga
    /\ parse_groups x = Ok gx
    /\ parse_groups (a ++ x) = Ok (ga ++ gx).
Proof.
  intros Ha Hx.
  destruct (groups_from_total a true) as [ga H1].
  destruct (groups_from_total x true) as [gx H2].
  exists ga, gx. repeat split; try now apply parse_groups_spec.
  apply parse_groups_spec. apply bol_end_true in Ha.
  apply groups_from_app; [exact H1 | | exact Hx | now rewrite Ha].
  destruct a as [|c a]; [reflexivity|].
  apply in_header_bol; [exact Ha | discriminate].
Qed.

Lemma groups_compose_at_header_witness :
  bol (rev (src ["#A"; "-"; "-k:v"; ""])) = true
  /\ hash_or_end (src ["#B"; "-"; "-l:w"]) = true
  /\ exists ga gx,
       parse_groups (src ["#A"; "-"; "-k:v"; ""]) = Ok ga
       /\ parse_groups (src ["#B"; "-"; "-l:w"]) = Ok gx
       /\ parse_groups (src ["#A"; "-"; "-k:v"; ""] ++ src ["#B"; "-"; "-l:w"])
          = Ok (ga ++ gx).
Proof.
  repeat (split; [reflexivity|]).
  apply (groups_compose_at_header (src ["#A"; "-"; "-k:v"; ""])
           (src ["#B"; "-"; "-l:w"])); reflexivity.
Defined.

(** ** Line feeds after carriage returns *)

Lemma crlf_only_line n rest prev :
  Forall (fun c => not_lt c = true) n ->
  crlf_only prev (n ++ ch_nl :: rest) = true ->
  n = [] /\ prev = true.
Proof.
  induction 1 as [|c n Hc _ IH] in prev |- *; cbn [app crlf_only].
  - replace (ch_nl =? ch_nl)%N with true by reflexivity. cbn [negb orb].
    intros H. apply andb_prop in H as [-> _]. now split.
  - intros H. apply andb_prop in H as [_ H].
    assert (Hcr : (c =? ch_cr)%N = false).
    { destruct (c =? ch_cr)%N eqn:E; [|reflexivity].
      apply N.eqb_eq in E; subst c. discriminate. }
    rewrite Hcr in H. destruct (IH _ H) as [_ Hf]. discriminate.
Qed.

Lemma crlf_group_at prev c s :
  crlf_only prev (c :: s) = true -> group_at (c :: s) = None.
Proof.
  intros H. destruct (group_at (c :: s)) as [[[n region] t]|] eqn:E; [|reflexivity].
  destruct (group_at_text _ _ _ _ E) as (Hs & Hn & _).
  injection Hs as -> ->. cbn [crlf_only] in H. apply andb_prop in H as [_ H].
  replace (ch_hash =? ch_cr)%N with false in H by reflexivity.
  destruct (crlf_only_line n _ false Hn H) as [_ Hf]. discriminate.
Qed.

Lemma crlf_groups_from s :
  forall b prev, crlf_only prev s = true -> groups_from b s [].
Proof.
  induction s as [|c s IH]; intros b prev H; [constructor|].
  apply gf_skip.
  - right. now apply (crlf_group_at prev).
  - cbn [crlf_only] in H. apply andb_prop in H as [_ H]. now apply (IH _ _ H).
Qed.

(** X5 - With line feeds that all come after a carriage return (CR LF line
    ends), no group is ever found: the group pattern wants a line feed right
    after the header text, and the header text stops before the carriage
    return. *)
Theorem crlf_source_has_no_group (getImageLink : str -> str) (source : str) :
  crlf_only false source = true ->
  exists ts, formatTable getImageLink source = Ok {| thumbnails := ts; groups := [] |}.
Proof.
  intros H. eexists. apply formatTable_spec. now apply (crlf_groups_from source true false).
Qed.

Lemma crlf_source_has_no_group_witness :
  crlf_only false (lit "#Stats" ++ [ch_cr; ch_nl] ++ lit "-HP:10"
                   ++ [ch_cr; ch_nl] ++ lit "-MP:20") = true
  /\ exists ts,
       formatTable no_links (lit "#Stats" ++ [ch_cr; ch_nl] ++ lit "-HP:10"
                             ++ [ch_cr; ch_nl] ++ lit "-MP:20")
       = Ok {| thumbnails := ts; groups := [] |}.
Proof.
  split; [reflexivity|].
  apply (crlf_source_has_no_group no_links). reflexivity.
Defined.

(** ** Entries as they are written *)

Lemma without_unescaped x s esc : without x s = true -> unescaped_in x esc s = false.
Proof.
  revert esc; induction s as [|c s IH]; intros esc; [reflexivity|].
  unfold without in *. cbn [forallb unescaped_in]. intros H.
  apply andb_prop in H as [Hc Hs]. apply negb_true_iff in Hc.
  now rewrite Hc, IH.
Qed.

Lemma replace_without x rep s :
  without x s = true -> replace [ch_bslash; x] rep s = s.
Proof.
  unfold without. induction s as [|c s IH]; [reflexivity|].
  cbn [forallb]. intros H. apply andb_prop in H as [Hc Hs].
  cbn [replace starts_with].
  assert (Hsw : (c =? ch_bslash)%N
                && match s with
                   | [] => false
                   | c0 :: _ => (c0 =? x)%N && true
                   end = false).
  { destruct s as [|y s]; [apply andb_false_r|]. cbn [forallb] in Hs.
    apply andb_prop in Hs as [Hy _]. apply negb_true_iff in Hy.
    rewrite Hy. apply andb_false_r. }
  rewrite Hsw. now rewrite IH.
Qed.

Lemma split_semi_without s :
  without ch_semi s = true -> forall esc, split_semi esc s = [s].
Proof.
  unfold without. induction s as [|c s IH]; intros H esc; [reflexivity|].
  cbn [forallb] in H. apply andb_prop in H as [Hc Hs]. apply negb_true_iff in Hc.
  cbn [split_semi]. rewrite Hc. cbn [andb]. now rewrite (IH Hs).
Qed.

(** X6 - An entry line, after the first line of a group, whose key holds no
    [:] and whose value holds no [;] (and neither a [#]) is stored as it is
    written: the group has, between the entries of the lines before and
    after it, the entry with that key and that value as one string; nothing
    is trimmed or decoded, and brackets, blanks and backslashes stay (the
    key must not end with a backslash, which would escape the [:] after
    it). *)
Theorem plain_entry_verbatim (getImageLink : str -> str)
    (a n first : str) (bs : list str) (k v : str) (cs : list str) (tail : str) :
  bol (rev a) = true ->
  forallb not_lt n = true ->
  forallb plain_line (first :: bs ++ cs) = true ->
  region_end tail = true ->
  plain_line k = true ->
  plain_line v = true ->
  without ch_colon k = true ->
  ends_with_bslash k = false ->
  without ch_semi v = true ->
  exists d gs1 gs2 e1 es1 es2,
    formatTable getImageLink
      (a ++ ch_hash :: n ++ ch_nl
         :: unlines ((ch_dash :: first) :: bs ++ (ch_dash :: k ++ ch_colon :: v) :: cs)
         ++ tail) = Ok d
    /\ parse_groups a = Ok gs1
    /\ parse_groups (tl tail) = Ok gs2
    /\ parse_entries first = Ok e1
    /\ parse_entries (unlines bs) = Ok es1
    /\ parse_entries (unlines cs) = Ok es2
    /\ groups d
       = gs1
         ++ {| name := n;
               entries := e1 ++ es1 ++ {| key := k; value := VString v |} :: es2 |}
         :: gs2.
Proof.
  intros Ha Hn Hls Ht Hk Hv Hc He Hs.
  destruct (parse_groups_total a) as (gs1 & E1 & _).
  destruct (parse_groups_total (tl tail)) as (gs2 & E2 & _).
  pose proof (parse_entries_lines first) as Ee1.
  pose proof (parse_entries_lines (unlines bs)) as Ees1.
  pose proof (parse_entries_lines (unlines cs)) as Ees2.
  destruct (formatTable_region_line getImageLink a n first bs
              (ch_dash :: k ++ ch_colon :: v) cs tail
              _ _ _ _ _ Ha Hn Hls (plain_entry_line k v Hk Hv) Ht
              E1 E2 Ee1 Ees1 Ees2) as (d & Hd & Hg).
  rewrite (entry_of_line_split k v (plain_line_ok k Hk) (plain_line_ok v Hv)
             (without_unescaped _ _ _ Hc) He) in Hg.
  unfold mk_entry, decode_key, decode_value in Hg.
  rewrite (replace_without _ _ _ Hc), (split_semi_without v Hs) in Hg.
  cbn [List.map value_of length Nat.eqb nth] in Hg.
  rewrite (replace_without _ _ _ Hs) in Hg.
  exists d, gs1, gs2. eexists _, _, _. repeat split; eassumption.
Qed.

Lemma plain_entry_verbatim_witness :
  bol (rev (src ["!pic.png"; ""])) = true
  /\ forallb not_lt (lit "Who") = true
  /\ forallb plain_line (lit "Name:Ann" :: [lit ""] ++ [lit "-Age:7"]) = true
  /\ region_end (src [""; "#Next"; "-"; "-a:b"]) = true
  /\ plain_line (lit " Owner ") = true
  /\ plain_line (lit "[[John Doe|Johnny]] \\ ") = true
  /\ without ch_colon (lit " Owner ") = true
  /\ ends_with_bslash (lit " Owner ") = false
  /\ without ch_semi (lit "[[John Doe|Johnny]] \\ ") = true
  /\ exists d gs1 gs2 e1 es1 es2,
       formatTable no_links
         (src ["!pic.png"; ""] ++ ch_hash :: lit "Who" ++ ch_nl
            :: unlines ((ch_dash :: lit "Name:Ann")
                        :: [lit ""]
                        ++ (ch_dash :: lit " Owner " ++ ch_colon
                              :: lit "[[John Doe|Johnny]] \\ ")
                        :: [lit "-Age:7"])
            ++ src [""; "#Next"; "-"; "-a:b"]) = Ok d
       /\ parse_groups (src ["!pic.png"; ""]) = Ok gs1
       /\ parse_groups (tl (src [""; "#Next"; "-"; "-a:b"])) = Ok gs2
       /\ parse_entries (lit "Name:Ann") = Ok e1
       /\ parse_entries (unlines [lit ""]) = Ok es1
       /\ parse_entries (unlines [lit "-Age:7"]) = Ok es2
       /\ groups d
          = gs1
            ++ {| name := lit "Who";
                  entries := e1 ++ es1
                             ++ {| key := lit " Owner ";
                                   value := VString (lit "[[John Doe|Johnny]] \\ ") |}
                             :: es2 |}
            :: gs2.
Proof.
  repeat (split; [reflexivity|]).
  apply (plain_entry_verbatim no_links (src ["!pic.png"; ""]) (lit "Who")
           (lit "Name:Ann") [lit ""] (lit " Owner ") (lit "[[John Doe|Johnny]] \\ ")
           [lit "-Age:7"] (src [""; "#Next"; "-"; "-a:b"])); reflexivity.
Defined.




Lemma entry_of_line_no_colon l :
  unescaped_in ch_colon false l = false -> entry_of_line l = [].
Proof.
  intros Hu. unfold entry_of_line, entry_at. destruct l as [|c l]; [reflexivity|].
  cbn [unescaped_in] in Hu. apply orb_false_elim in Hu as [Hc Hu].
  destruct (c =? ch_dash)%N eqn:Ec; [|reflexivity].
  apply N.eqb_eq in Ec; subst c.
  change (ch_dash =? ch_bslash)%N with false in Hu.
  now rewrite (find_sep_none _ _ _ Hu).
Qed.

(** X15 - A line that holds no [:] that no backslash precedes and no [#]
    (a line that starts with [-] but has no such [:], in particular) and
    stands after the first line of a group gives no entry and no error: the
    document has the same groups, with the same entries, with the line as
    without it, and the group has the entries of the lines before it
    followed by those of the lines after it. *)
Theorem colonless_line_skipped_in_group (getImageLink : str -> str)
    (a n first : str) (bs : list str) (l : str) (cs : list str) (tail : str) :
  bol (rev a) = true ->
  forallb not_lt n = true ->
  forallb plain_line (first :: bs ++ cs) = true ->
  region_end tail = true ->
  plain_line l = true ->
  unescaped_in ch_colon false l = false ->
  exists d d' gs1 gs2 e1 es1 es2,
    formatTable getImageLink
      (a ++ ch_hash :: n ++ ch_nl
         :: unlines ((ch_dash :: first) :: bs ++ l :: cs) ++ tail) = Ok d
    /\ formatTable getImageLink
         (a ++ ch_hash :: n ++ ch_nl
            :: unlines ((ch_dash :: first) :: bs ++ cs) ++ tail) = Ok d'
    /\ parse_groups a = Ok gs1
    /\ parse_groups (tl tail) = Ok gs2
    /\ parse_entries first = Ok e1
    /\ parse_entries (unlines bs) = Ok es1
    /\ parse_entries (unlines cs) = Ok es2
    /\ groups d = gs1 ++ {| name := n; entries := e1 ++ es1 ++ es2 |} :: gs2
    /\ groups d' = groups d.
Proof.
  intros Ha Hn Hls Ht Hl Hu.
  destruct (parse_groups_total a) as (gs1 & E1 & _).
  destruct (parse_groups_total (tl tail)) as (gs2 & E2 & _).
  pose proof (parse_entries_lines first) as Ee1.
  pose proof (parse_entries_lines (unlines bs)) as Ees1.
  pose proof (parse_entries_lines (unlines cs)) as Ees2.
  destruct (formatTable_region_line getImageLink a n first bs l cs tail
              _ _ _ _ _ Ha Hn Hls Hl Ht E1 E2 Ee1 Ees1 Ees2) as (d & Hd & Hg).
  destruct (formatTable_region getImageLink a n first bs [] cs tail
              _ _ _ _ _ Ha Hn Hls Ht E1 E2 Ee1 Ees1 Ees2) as (d' & Hd' & Hg').
  rewrite (entry_of_line_no_colon l Hu) in Hg.
  cbn [flat_map app] in Hg, Hg'.
  exists d, d', gs1, gs2. eexists _, _, _. repeat split; try eassumption.
  now rewrite Hg'.
Qed.

Lemma colonless_line_skipped_in_group_witness :
  bol (rev (lit "")) = true
  /\ forallb not_lt (lit "G") = true
  /\ forallb plain_line (lit "" :: [lit "-HP:10"] ++ [lit "-MP:20"]) = true
  /\ region_end (lit "") = true
  /\ plain_line (lit "-no colon\: here") = true
  /\ unescaped_in ch_colon false (lit "-no colon\: here") = false
  /\ exists d d' gs1 gs2 e1 es1 es2,
       formatTable no_links
         (lit "" ++ ch_hash :: lit "G" ++ ch_nl
            :: unlines ((ch_dash :: lit "")
                        :: [lit "-HP:10"] ++ lit "-no colon\: here" :: [lit "-MP:20"])
            ++ lit "") = Ok d
       /\ formatTable no_links
            (lit "" ++ ch_hash :: lit "G" ++ ch_nl
               :: unlines ((ch_dash :: lit "") :: [lit "-HP:10"] ++ [lit "-MP:20"])
               ++ lit "") = Ok d'
       /\ parse_groups (lit "") = Ok gs1
       /\ parse_groups (tl (lit "")) = Ok gs2
       /\ parse_entries (lit "") = Ok e1
       /\ parse_entries (unlines [lit "-HP:10"]) = Ok es1
       /\ parse_entries (unlines [lit "-MP:20"]) = Ok es2
       /\ groups d = gs1 ++ {| name := lit "G"; entries := e1 ++ es1 ++ es2 |} :: gs2
       /\ groups d' = groups d.
Proof.
  repeat (split; [reflexivity|]).
  apply (colonless_line_skipped_in_group no_links (lit "") (lit "G") (lit "")
           [lit "-HP:10"] (lit "-no colon\: here") [lit "-MP:20"] (lit ""));
    reflexivity.
Defined.

(** ** What the processor shows for a value *)

Lemma label_of_unfold c x :
  label_of (c :: x)
  = if closes (c :: x) then Some []
    else if not_lt c
         then match label_of x with
              | Some l => Some (c :: l)
              | None => None
              end
         else None.
Proof. destruct x; reflexivity. Qed.

Lemma closes_long s : 3 <= length s -> closes s = false.
Proof.
  destruct s as [|a [|b [|c s]]]; cbn [length closes]; intros H;
    first [reflexivity | lia].
Qed.

Lemma label_of_line l :
  line_ok l = true -> label_of (l ++ [ch_rbr; ch_rbr]) = Some l.
Proof.
  unfold line_ok. induction l as [|c l IH]; [reflexivity|].
  cbn [forallb app]. intros H. apply andb_prop in H as [Hc Hl].
  rewrite label_of_unfold, closes_long, Hc, (IH Hl); [reflexivity|].
  cbn [length]. rewrite length_app. cbn [length]. lia.
Qed.

Lemma link_split_label l :
  line_ok l = true ->
  forall t esc,
    line_ok t = true ->
    unescaped_in ch_pipe esc t = false ->
    match rev t with [] => esc | c :: _ => (c =? ch_bslash)%N end = false ->
    link_split esc (t ++ ch_pipe :: l ++ [ch_rbr; ch_rbr]) = Some (t, Some l).
Proof.
  intros Hl. unfold line_ok. induction t as [|c t IH]; intros esc Ht Hu He.
  - cbn [rev] in He. subst esc. cbn [app link_split].
    replace (ch_pipe =? ch_pipe)%N with true by reflexivity. cbn [andb negb].
    now rewrite (label_of_line l Hl).
  - cbn [forallb unescaped_in] in *.
    apply andb_prop in Ht as [Hc Ht]. apply orb_false_elim in Hu as [Hcs Hu].
    cbn [app link_split]. rewrite Hcs, Hc, closes_long.
    + rewrite (IH (c =? ch_bslash)%N Ht Hu); [reflexivity|].
      cbn [rev] in He. destruct (rev t) as [|x r]; [exact He | exact He].
    + cbn [length]. rewrite length_app. cbn [length]. rewrite length_app.
      cbn [length]. lia.
Qed.

Lemma link_split_plain :
  forall t esc,
    line_ok t = true ->
    unescaped_in ch_pipe esc t = false ->
    link_split esc (t ++ [ch_rbr; ch_rbr]) = Some (t, None).
Proof.
  unfold line_ok. induction t as [|c t IH]; intros esc Ht Hu; [reflexivity|].
  cbn [forallb unescaped_in] in *.
  apply andb_prop in Ht as [Hc Ht]. apply orb_false_elim in Hu as [Hcs Hu].
  cbn [app link_split]. rewrite Hcs, Hc, closes_long.
  - now rewrite (IH (c =? ch_bslash)%N Ht Hu).
  - cbn [length]. rewrite length_app. cbn [length]. lia.
Qed.

Lemma link_split_total :
  forall x esc, line_ok x = true ->
    exists t l, link_split esc (x ++ [ch_rbr; ch_rbr]) = Some (t, l).
Proof.
  unfold line_ok. induction x as [|c x IH]; intros esc Hx.
  - exists [], None. reflexivity.
  - cbn [forallb] in Hx. apply andb_prop in Hx as [Hc Hx].
    cbn [app link_split].
    destruct ((c =? ch_pipe)%N && negb esc).
    + rewrite (label_of_line x Hx). now exists [], (Some x).
    + rewrite closes_long, Hc.
      * destruct (IH (c =? ch_bslash)%N Hx) as (t & l & ->). now exists (c :: t), l.
      * cbn [length]. rewrite length_app. cbn [length]. lia.
Qed.

Lemma link_parts_bracketed x : link_parts (bracketed x) = link_split false (x ++ [ch_rbr; ch_rbr]).
Proof. reflexivity. Qed.

Lemma link_parts_text v t l :
  link_parts v = Some (t, l) -> v = bracketed (t ++ desc_text l).
Proof.
  unfold link_parts, bracketed. destruct v as [|a [|b s]]; try discriminate.
  destruct ((a =? ch_lbr)%N && (b =? ch_lbr)%N) eqn:E; [|discriminate].
  apply andb_prop in E as [Ea Eb]. apply N.eqb_eq in Ea, Eb. subst a b.
  intros H. rewrite (link_split_text _ _ _ _ H). now rewrite <- app_assoc.
Qed.

Lemma render_value_string getNoteLink v :
  render_value getNoteLink (VString v)
  = Ok match link_parts v with
       | Some (t, l) =>
           Elem "a" "internal-link aside-table-entry-value"
             (Some match l with Some x => x | None => getNoteLink t end)
             [("href", getNoteLink t); ("data-href", getNoteLink t);
              ("target", lit "_blank"); ("rel", lit "noopener")] []
       | None => Elem "span" "aside-table-entry-value" (Some v) [] []
       end.
Proof.
  unfold render_value. rewrite js_match_link. cbn [bind].
  destruct (link_parts v) as [[t l]|]; reflexivity.
Qed.

(** X8 - A value of the form [[[target|label]]] on one line is shown as an
    anchor: the target is the text before the first [|] that no backslash
    precedes, it goes to the note resolver as it is written, and the result
    is the address of the anchor; the label is all the text after that [|],
    and is the text of the anchor also when it is empty. *)
Theorem link_with_label_anchor (getNoteLink : str -> str) (t l : str) :
  line_ok t = true ->
  line_ok l = true ->
  unescaped_in ch_pipe false t = false ->
  ends_with_bslash t = false ->
  render_value getNoteLink (VString (bracketed (t ++ ch_pipe :: l)))
  = Ok (Elem "a" "internal-link aside-table-entry-value" (Some l)
          [("href", getNoteLink t); ("data-href", getNoteLink t);
           ("target", lit "_blank"); ("rel", lit "noopener")] []).
Proof.
  intros Ht Hl Hu He. rewrite render_value_string, link_parts_bracketed.
  rewrite <- app_assoc. cbn [app].
  now rewrite (link_split_label l Hl t false Ht Hu He).
Qed.

Lemma link_with_label_anchor_witness :
  line_ok (lit "John\|Doe") = true
  /\ line_ok (lit "") = true
  /\ unescaped_in ch_pipe false (lit "John\|Doe") = false
  /\ ends_with_bslash (lit "John\|Doe") = false
  /\ render_value no_links (VString (bracketed (lit "John\|Doe" ++ ch_pipe :: lit "")))
     = Ok (Elem "a" "internal-link aside-table-entry-value" (Some (lit ""))
             [("href", no_links (lit "John\|Doe")); ("data-href", no_links (lit "John\|Doe"));
              ("target", lit "_blank"); ("rel", lit "noopener")] []).
Proof.
  repeat (split; [reflexivity|]).
  apply (link_with_label_anchor no_links (lit "John\|Doe") (lit "")); reflexivity.
Defined.

(** X9 - A value of the form [[[target]]] on one line, with no [|] that no
    backslash precedes, is shown as an anchor whose text and address are both
    what [getNoteLink] gives for the target: the link text of the first file
    the vault finds for it, and the target as it is written when the vault
    finds none. *)
Theorem link_without_label_anchor
    (getFirstLinkpathDest : str -> option Vault.TFile)
    (fileToLinktext : Vault.TFile -> str) (t : str) :
  line_ok t = true ->
  unescaped_in ch_pipe false t = false ->
  render_value (Vault.getNoteLink getFirstLinkpathDest fileToLinktext)
    (VString (bracketed t))
  = Ok (let note := match getFirstLinkpathDest t with
                    | Some file => fileToLinktext file
                    | None => t
                    end in
        Elem "a" "internal-link aside-table-entry-value" (Some note)
          [("href", note); ("data-href", note);
           ("target", lit "_blank"); ("rel", lit "noopener")] []).
Proof.
  intros Ht Hu. rewrite render_value_string, link_parts_bracketed.
  now rewrite (link_split_plain t false Ht Hu).
Qed.

Lemma link_without_label_anchor_witness :
  line_ok (lit "John ]] Doe") = true
  /\ unescaped_in ch_pipe false (lit "John ]] Doe") = false
  /\ render_value (Vault.getNoteLink (fun _ => None) Vault.path)
       (VString (bracketed (lit "John ]] Doe")))
     = Ok (let note := match (fun _ : str => @None Vault.TFile) (lit "John ]] Doe") with
                       | Some file => Vault.path file
                       | None => lit "John ]] Doe"
                       end in
           Elem "a" "internal-link aside-table-entry-value" (Some note)
             [("href", note); ("data-href", note);
              ("target", lit "_blank"); ("rel", lit "noopener")] []).
Proof.
  repeat (split; [reflexivity|]).
  apply (link_without_label_anchor (fun _ => None) Vault.path (lit "John ]] Doe"));
    reflexivity.
Defined.

(** X10 - A string value that does not start with [[[] or does not end with
    []]] is shown as a span with the value as its text, unchanged; the note
    resolver is not asked. *)
Theorem unbracketed_value_span (getNoteLink : str -> str) (v : str) :
  starts_with [ch_lbr; ch_lbr] v = false
  \/ starts_with [ch_rbr; ch_rbr] (rev v) = false ->
  render_value getNoteLink (VString v)
  = Ok (Elem "span" "aside-table-entry-value" (Some v) [] []).
Proof.
  intros H. rewrite render_value_string.
  destruct (link_parts v) as [[t l]|] eqn:E; [|reflexivity].
  apply link_parts_text in E. subst v. unfold bracketed in H.
  destruct H as [H|H]; [discriminate|].
  change (ch_lbr :: ch_lbr :: (t ++ desc_text l) ++ [ch_rbr; ch_rbr])
    with (([ch_lbr; ch_lbr] ++ t ++ desc_text l) ++ [ch_rbr; ch_rbr]) in H.
  rewrite rev_app_distr in H. discriminate.
Qed.

Lemma unbracketed_value_span_witness :
  (starts_with [ch_lbr; ch_lbr] (lit "see [[John Doe]]") = false
   \/ starts_with [ch_rbr; ch_rbr] (rev (lit "see [[John Doe]]")) = false)
  /\ render_value no_links (VString (lit "see [[John Doe]]"))
     = Ok (Elem "span" "aside-table-entry-value" (Some (lit "see [[John Doe]]")) [] []).
Proof.
  split; [left; reflexivity|].
  apply (unbracketed_value_span no_links (lit "see [[John Doe]]")).
  left; reflexivity.
Defined.

(** X11 - Every string value on one line that starts with [[[] and ends with
    []]] (four characters or more) is shown as an anchor, never as a span:
    the text between the brackets is the target, or the target, a [|] and
    the label. *)
Theorem bracketed_value_anchor (getNoteLink : str -> str) (x : str) :
  line_ok x = true ->
  exists t l,
    x = t ++ desc_text l
    /\ render_value getNoteLink (VString (bracketed x))
       = Ok (Elem "a" "internal-link aside-table-entry-value"
               (Some match l with Some label => label | None => getNoteLink t end)
               [("href", getNoteLink t); ("data-href", getNoteLink t);
                ("target", lit "_blank"); ("rel", lit "noopener")] []).
Proof.
  intros Hx. destruct (link_split_total x false Hx) as (t & l & E).
  exists t, l. split.
  - apply link_split_text in E. rewrite app_assoc in E.
    now apply app_inv_tail in E.
  - rewrite render_value_string, link_parts_bracketed. now rewrite E.
Qed.

Lemma bracketed_value_anchor_witness :
  line_ok (lit "a\|b|c|d]]") = true
  /\ exists t l,
       lit "a\|b|c|d]]" = t ++ desc_text l
       /\ render_value no_links (VString (bracketed (lit "a\|b|c|d]]")))
          = Ok (Elem "a" "internal-link aside-table-entry-value"
                  (Some match l with Some label => label | None => no_links t end)
                  [("href", no_links t); ("data-href", no_links t);
                   ("target", lit "_blank"); ("rel", lit "noopener")] []).
Proof.
  split; [reflexivity|].
  apply (bracketed_value_anchor no_links (lit "a\|b|c|d]]")). reflexivity.
Defined.

(** ** What the processor shows for a source *)

Lemma mapM_Forall2 {A B} (f : A -> res B) (P : A -> B -> Prop) (l : list A) :
  (forall x, exists y, f x = Ok y /\ P x y) ->
  exists ys, mapM f l = Ok ys /\ Forall2 P l ys.
Proof.
  intros Hf. induction l as [|x l (ys & E & H)].
  - exists []. split; [reflexivity | constructor].
  - destruct (Hf x) as (y & Ey & Hy). exists (y :: ys).
    cbn [mapM bind]. rewrite Ey. cbn [bind]. rewrite E. cbn [bind].
    split; [reflexivity | now constructor].
Qed.

Lemma render_value_total getNoteLink v : exists n, render_value getNoteLink v = Ok n.
Proof.
  destruct v as [s|l]; [|eexists; reflexivity].
  rewrite render_value_string. eexists; reflexivity.
Qed.

(** X12 - The processor never throws.  For every source it builds one
    container: first the strip of thumbnails, with one tile for each
    thumbnail of the parsed document in their order, then for each group in
    order its header, with the name as text and the header colour of the
    settings as background, followed by one row for each entry of the group,
    made of the key in a [strong] element and the element of the value. *)
Theorem processor_total_shape
    (getImageLink getNoteLink : str -> str) (headerColor source : str) :
  exists d rowss,
    formatTable getImageLink source = Ok d
    /\ processor getImageLink getNoteLink headerColor source
       = Ok (Elem "span" "aside-table-container" None []
               (Elem "div" "aside-table-thumbnails" None []
                  (List.map render_thumbnail (thumbnails d))
                :: concat rowss))
    /\ Forall2
         (fun g rows =>
            exists es,
              rows = Elem "div" "aside-table-group-header" (Some (name g))
                       [("style", lit "background-color: " ++ headerColor)] []
                     :: es
              /\ Forall2
                   (fun e row =>
                      exists v,
                        render_value getNoteLink (value e) = Ok v
                        /\ row = Elem "div" "aside-table-entry" None []
                                   [Elem "strong" "aside-table-entry-key"
                                      (Some (key e)) [] [];
                                    v])
                   (entries g) es)
         (groups d) rowss.
Proof.
  destruct (groups_from_total source true) as [gs Hgs].
  pose proof (formatTable_spec getImageLink source gs Hgs) as Hd.
  eexists.
  destruct (mapM_Forall2 (render_group getNoteLink headerColor)
              (fun g rows =>
                 exists es,
                   rows = Elem "div" "aside-table-group-header" (Some (name g))
                            [("style", lit "background-color: " ++ headerColor)] []
                          :: es
                   /\ Forall2
                        (fun e row =>
                           exists v,
                             render_value getNoteLink (value e) = Ok v
                             /\ row = Elem "div" "aside-table-entry" None []
                                        [Elem "strong" "aside-table-entry-key"
                                           (Some (key e)) [] [];
                                         v])
                        (entries g) es)
              gs) as (rowss & E & H).
  { intros g.
    destruct (mapM_Forall2 (render_entry getNoteLink)
                (fun e row =>
                   exists v,
                     render_value getNoteLink (value e) = Ok v
                     /\ row = Elem "div" "aside-table-entry" None []
                                [Elem "strong" "aside-table-entry-key"
                                   (Some (key e)) [] [];
                                 v])
                (entries g)) as (es & Ees & Hes).
    { intros e. destruct (render_value_total getNoteLink (value e)) as [v Ev].
      unfold render_entry. rewrite Ev. cbn [bind].
      eexists. split; [reflexivity|]. now exists v. }
    unfold render_group. rewrite Ees. cbn [bind].
    eexists. split; [reflexivity|]. now exists es. }
  exists rowss. split; [exact Hd|]. split; [|exact H].
  unfold processor. rewrite Hd. cbn [bind groups thumbnails]. rewrite E. reflexivity.
Qed.

(** X13 - A thumbnail line that ends with its [|] has an empty description in
    the parsed document, where a line without [|] has none; the processor
    shows the same tile for both, with no title. *)
Theorem empty_description_no_title (getImageLink : str -> str) (u : str) :
  line_ok u = true ->
  unescaped_in ch_pipe false u = false ->
  ends_with_bslash u = false ->
  exists t1 t2,
    parse_thumbnails getImageLink (ch_bang :: u ++ [ch_pipe]) = Ok [t1]
    /\ parse_thumbnails getImageLink (ch_bang :: u) = Ok [t2]
    /\ description t1 = Some []
    /\ description t2 = None
    /\ render_thumbnail t1
       = Elem "div" "aside-table-thumbnail" None []
           [Elem "img" "" None [("src", getImageLink u)] []]
    /\ render_thumbnail t2 = render_thumbnail t1.
Proof.
  intros Hu Hn He.
  exists {| url := getImageLink u; description := Some [] |},
         {| url := getImageLink u; description := None |}.
  split; [now apply thumbnail_with_description|].
  split; [now apply thumbnail_without_description|].
  repeat split.
Qed.

Lemma empty_description_no_title_witness :
  line_ok (lit "https://x/y.png") = true
  /\ unescaped_in ch_pipe false (lit "https://x/y.png") = false
  /\ ends_with_bslash (lit "https://x/y.png") = false
  /\ exists t1 t2,
       parse_thumbnails no_links (ch_bang :: lit "https://x/y.png" ++ [ch_pipe]) = Ok [t1]
       /\ parse_thumbnails no_links (ch_bang :: lit "https://x/y.png") = Ok [t2]
       /\ description t1 = Some []
       /\ description t2 = None
       /\ render_thumbnail t1
          = Elem "div" "aside-table-thumbnail" None []
              [Elem "img" "" None [("src", no_links (lit "https://x/y.png"))] []]
       /\ render_thumbnail t2 = render_thumbnail t1.
Proof.
  repeat (split; [reflexivity|]).
  apply (empty_description_no_title no_links (lit "https://x/y.png")); reflexivity.
Defined.

(** X14 - A thumbnail line with a description that is not empty is shown as
    one tile: an image whose title is the description and whose source is
    what [getImageLink] gives for the text before the [|]: the address
    [app://local/], the base path of the vault, [/] and the path of the
    first file the vault finds for it, and the text as it is written when
    the vault finds none. *)
Theorem thumbnail_tile
    (getFirstLinkpathDest : str -> option Vault.TFile) (u : str) (c : char) (d : str) :
  line_ok u = true ->
  line_ok (c :: d) = true ->
  unescaped_in ch_pipe false u = false ->
  ends_with_bslash u = false ->
  exists ts,
    parse_thumbnails (Vault.getImageLink getFirstLinkpathDest)
      (ch_bang :: u ++ ch_pipe :: c :: d) = Ok ts
    /\ List.map render_thumbnail ts
       = [Elem "div" "aside-table-thumbnail" None []
            [Elem "img" "" None
               [("src", match getFirstLinkpathDest u with
                        | Some image =>
                            lit "app://local/" ++ Vault.basePath image
                              ++ lit "/" ++ Vault.path image
                        | None => u
                        end);
                ("title", c :: d)] []]].
Proof.
  intros Hu Hd Hn He. eexists. split.
  - now apply thumbnail_with_description.
  - reflexivity.
Qed.

Lemma thumbnail_tile_witness :
  line_ok (lit "y.png") = true
  /\ line_ok (ch_pipe :: lit "a|b") = true
  /\ unescaped_in ch_pipe false (lit "y.png") = false
  /\ ends_with_bslash (lit "y.png") = false
  /\ exists ts,
       parse_thumbnails
         (Vault.getImageLink
            (fun x => Some {| Vault.path := lit "img/" ++ x; Vault.basePath := lit "/home/v" |}))
         (ch_bang :: lit "y.png" ++ ch_pipe :: ch_pipe :: lit "a|b") = Ok ts
       /\ List.map render_thumbnail ts
          = [Elem "div" "aside-table-thumbnail" None []
               [Elem "img" "" None
                  [("src", match (fun x => Some {| Vault.path := lit "img/" ++ x;
                                                   Vault.basePath := lit "/home/v" |})
                                   (lit "y.png") with
                           | Some image =>
                               lit "app://local/" ++ Vault.basePath image
                                 ++ lit "/" ++ Vault.path image
                           | None => lit "y.png"
                           end);
                   ("title", ch_pipe :: lit "a|b")] []]].
Proof.
  repeat (split; [reflexivity|]).
  apply (thumbnail_tile
           (fun x => Some {| Vault.path := lit "img/" ++ x; Vault.basePath := lit "/home/v" |})
           (lit "y.png") ch_pipe (lit "a|b")); reflexivity.
Defined.
